(** * CppConfigFramework: the configuration reader and its reference resolver

    A shallow embedding of [ConfigReader::Impl] (src/code/src/ConfigReaderImpl.cpp),
    of the factory registry (src/code/src/ConfigReaderFactory.cpp) and of the
    node data containers (src/code/src/ConfigNodeData.hpp).

    The node operations that live in ConfigNode.cpp (path syntax, [nodeAtPath],
    [applyObject], [setMember], [clone]) are not part of the sources at hand;
    their definitions below are marked "Modelled from the spec". *)

From Stdlib Require Import String Ascii List Bool Arith Lia.
From stdpp Require Import base gmap strings.
Import ListNotations.
Open Scope string_scope.
Set Warnings "-register-all".

(* ------------------------------------------------------------------------- *)
(** ** JSON values (QJsonValue) *)

(** A parsed JSON value. [JObj] lists the members in the iteration order of
    the [QJsonObject]. [QJsonValue::Undefined] only arises from a lookup of a
    missing key, and is modelled by [None] there. *)
Inductive json : Type :=
| JNull
| JBool (b : bool)
| JNum (z : Z)
| JStr (s : string)
| JArr (xs : list json)
| JObj (ms : list (string * json)).

(** [QJsonObject::value]: [None] stands for [QJsonValue::Undefined]. *)
Fixpoint jvalue (ms : list (string * json)) (k : string) : option json :=
  match ms with
  | [] => None
  | (k', v) :: ms' => if String.eqb k k' then Some v else jvalue ms' k
  end.

(** [QJsonObject::contains]. *)
Definition jcontains (ms : list (string * json)) (k : string) : bool :=
  match jvalue ms k with Some _ => true | None => false end.

(* ------------------------------------------------------------------------- *)
(** ** Configuration nodes *)

(** [ConfigNode::Type] with its per-kind data. A Value carries the JSON value it
    was read from ([QJsonValue::toVariant]); an Object lists its members in
    the order in which the container enumerates them. *)
Inductive node : Type :=
| NNull
| NValue (v : json)
| NArray (es : list node)
| NObject (ms : list (string * node))
| NNodeReference (ref : string)
| NDerivedArray (es : list node)
| NDerivedObject (bases : list string) (config : node).

(** [ConfigReader::Impl::isFullyResolved]. *)
Fixpoint isFullyResolved (n : node) : bool :=
  match n with
  | NNull | NValue _ => true
  | NArray es => forallb isFullyResolved es
  | NObject ms => forallb (fun m => isFullyResolved (snd m)) ms
  | NNodeReference _ | NDerivedArray _ | NDerivedObject _ _ => false
  end.

(** [ConfigNode::isNull] *)
Definition isNull (n : node) : bool := match n with NNull => true | _ => false end.

(** [ConfigNode::member]: the first member with the given name. *)
Fixpoint member (ms : list (string * node)) (k : string) : option node :=
  match ms with
  | [] => None
  | (k', v) :: ms' => if String.eqb k k' then Some v else member ms' k
  end.

(** [ConfigNode::containsMember]. *)
Definition containsMember (ms : list (string * node)) (k : string) : bool :=
  match member ms k with Some _ => true | None => false end.

(** Modelled from the spec (ConfigNode::setMember, section 4.2): an existing
    name is overwritten in place, a new name is added. The member container is
    a [std::unordered_map] (see [hashSet] below), whose iteration order is not
    the order of insertion; the list order chosen here (a new name goes last)
    is one representative, and the properties below about Objects built by
    [setMember] are stated through member lookups and the set of member names,
    not through the order of the list. *)
Fixpoint setMember (ms : list (string * node)) (k : string) (v : node)
  : list (string * node) :=
  match ms with
  | [] => [(k, v)]
  | (k', v') :: ms' =>
      if String.eqb k k' then (k', v) :: ms' else (k', v') :: setMember ms' k v
  end.

(* ------------------------------------------------------------------------- *)
(** ** Node paths (ConfigNode path helpers) *)

(** [QString::split('/')]: every field, empty ones included. *)
Fixpoint split_slash_acc (s : string) (cur : string) : list string :=
  match s with
  | EmptyString => [cur]
  | String c s' =>
      if Ascii.eqb c "/" then cur :: split_slash_acc s' ""
      else split_slash_acc s' (cur ++ String c EmptyString)
  end.

Definition split_slash (s : string) : list string := split_slash_acc s "".

(** Modelled from the spec (ConfigNode::isAbsoluteNodePath): begins with '/'. *)
Definition isAbsoluteNodePath (p : string) : bool :=
  match p with String c _ => Ascii.eqb c "/" | EmptyString => false end.

Definition is_name_start (c : ascii) : bool :=
  let n := nat_of_ascii c in
  (Nat.leb 65 n && Nat.leb n 90) || (Nat.leb 97 n && Nat.leb n 122) || Nat.eqb n 95.

Definition is_name_char (c : ascii) : bool :=
  let n := nat_of_ascii c in is_name_start c || (Nat.leb 48 n && Nat.leb n 57).

Fixpoint all_name_chars (s : string) : bool :=
  match s with
  | EmptyString => true
  | String c s' => is_name_char c && all_name_chars s'
  end.

(** Modelled from the spec (ConfigNode::validateNodeName, section 3.1):
    [A-Za-z_][A-Za-z0-9_]*. *)
Definition validateNodeName (s : string) : bool :=
  match s with
  | EmptyString => false
  | String c s' => is_name_start c && all_name_chars s'
  end.

(** The names of a path: the fields after the leading '/' of an absolute path. *)
Definition path_fields (p : string) : list string :=
  if isAbsoluteNodePath p then tl (split_slash p) else split_slash p.

(** Modelled from the spec (ConfigNode::validateNodePath, section 4.1): "/" is
    valid; otherwise every segment is a valid name. *)
Definition validateNodePath (p : string) : bool :=
  if String.eqb p "/" then true
  else if String.eqb p "" then false
  else forallb validateNodeName (path_fields p).

(** Resolution of ".." segments; [None] when it climbs above the root. *)
Fixpoint resolve_dots (acc : list string) (segs : list string) : option (list string) :=
  match segs with
  | [] => Some (rev acc)
  | s :: segs' =>
      if String.eqb s ".." then
        match acc with [] => None | _ :: acc' => resolve_dots acc' segs' end
      else resolve_dots (s :: acc) segs'
  end.

(** Non-empty segments of a path (trailing slashes cleaned, root = []). *)
Definition segments (p : string) : list string :=
  filter (fun s => negb (String.eqb s "")) (split_slash p).

(** Modelled from the spec (ConfigNode::validateNodePath(ref, current),
    section 4.1): an absolute reference must validate; a relative one is joined
    onto the current path and validated after resolving "..". *)
Definition validateNodeReference (ref current : string) : bool :=
  if isAbsoluteNodePath ref then validateNodePath ref
  else if String.eqb ref "" then false
  else match resolve_dots (rev (segments current)) (split_slash ref) with
       | Some segs => forallb validateNodeName segs
       | None => false
       end.

(** Modelled from the spec (ConfigNode::appendNodeToPath): one separator,
    no doubled slash after the root. *)
Definition appendNodeToPath (p name : string) : string :=
  if String.eqb p "/" then "/" ++ name else p ++ "/" ++ name.

(* ------------------------------------------------------------------------- *)
(** ** The merge engine *)

(** Modelled from the spec (ConfigNode::applyObject, section 4.3): each member
    of [src], in order, is inserted when absent, merged recursively when both
    sides are Objects, and otherwise overwrites the destination member. *)
Fixpoint applyMembers (dm : list (string * node)) (src : node) {struct src}
  : list (string * node) :=
  match src with
  | NObject sm =>
      (fix go (sm : list (string * node)) (dm : list (string * node)) :=
         match sm with
         | [] => dm
         | (k, v) :: sm' =>
             go sm' (match member dm k, v with
                     | Some (NObject dm'), NObject _ =>
                         setMember dm k (NObject (applyMembers dm' v))
                     | _, _ => setMember dm k v
                     end)
         end) sm dm
  | _ => dm
  end.

(** Modelled from the spec (sections 4.3 and 9): the destination must be an
    Object; a Null source is applied as nothing (the short cut that lets [read]
    go on with a null 'config'), any other non-Object source fails. *)
Definition applyObject (dst src : node) : option node :=
  match dst, src with
  | NObject dm, NObject _ => Some (NObject (applyMembers dm src))
  | NObject _, NNull => Some dst
  | _, _ => None
  end.

(* ------------------------------------------------------------------------- *)
(** ** Parent links as a zipper *)

(** The position of a node in its tree. The C++ nodes carry a raw parent
    pointer; a frame records the parent together with the node's slot in it, so
    that walking to the parent rebuilds the parent's current value.
    [FBeside f sib] is the frame of a node whose parent pointer was set to the
    parent of [sib] (which sits in slot [f]) without the node being a child of
    that parent: the cloned config override of a DerivedObject. *)
Inductive frame : Type :=
| FArray (l r : list node)
| FObject (k : string) (l r : list (string * node))
| FDerivedArray (l r : list node)
| FBeside (f : frame) (sib : node).

(** The parent's value, given the current value of the child in the slot. *)
Fixpoint plug (f : frame) (n : node) : node :=
  match f with
  | FArray l r => NArray (rev_append l (n :: r))
  | FObject k l r => NObject (rev_append l ((k, n) :: r))
  | FDerivedArray l r => NDerivedArray (rev_append l (n :: r))
  | FBeside f' sib => plug f' sib
  end.

(** A node together with its chain of parents ([ConfigNode *]). *)
Definition loc : Type := (list frame * node)%type.

(** [ConfigNode::parent]. *)
Definition parent (x : loc) : option loc :=
  match x with
  | ([], _) => None
  | (f :: c, n) => Some (c, plug f n)
  end.

(** [ConfigNode::rootNode]. *)
Fixpoint rootNode (c : list frame) (n : node) : node :=
  match c with
  | [] => n
  | f :: c' => rootNode c' (plug f n)
  end.

Fixpoint split_member (k : string) (l : list (string * node)) (ms : list (string * node))
  : option (list (string * node) * node * list (string * node)) :=
  match ms with
  | [] => None
  | (k', v) :: ms' =>
      if String.eqb k k' then Some (l, v, ms') else split_member k ((k', v) :: l) ms'
  end.

(** Descending into the member [k] of an Object. *)
Definition child (x : loc) (k : string) : option loc :=
  match x with
  | (c, NObject ms) =>
      match split_member k [] ms with
      | Some (l, v, r) => Some (FObject k l r :: c, v)
      | None => None
      end
  | _ => None
  end.

Fixpoint walk (segs : list string) (x : loc) : option loc :=
  match segs with
  | [] => Some x
  | s :: segs' =>
      match (if String.eqb s ".." then parent x else child x s) with
      | Some y => walk segs' y
      | None => None
      end
  end.

(** Modelled from the spec (ConfigNode::nodeAtPath, section 4.2): an absolute
    path walks from the root, a relative one from the node itself; ".." goes
    to the parent; a missing segment gives nothing. *)
Definition nodeAtPath (x : loc) (p : string) : option node :=
  let start := if isAbsoluteNodePath p then ([], rootNode (fst x) (snd x)) else x in
  match walk (segments p) start with
  | Some y => Some (snd y)
  | None => None
  end.

(* ------------------------------------------------------------------------- *)
(** ** The reference resolver *)

(** [ConfigReader::Impl::ReferenceResolutionResult]. *)
Inductive ReferenceResolutionResult : Type :=
| Resolved
| Unresolved
| Error.

(** The base loop of [resolveDerivedObjectReferences]: each base is looked up
    from the parent and applied onto the accumulator. [Unresolved] when a base
    is missing or not fully resolved, [Error] when it cannot be applied. *)
Fixpoint applyBases (parentNode : loc) (bases : list string) (acc : node)
  : ReferenceResolutionResult * node :=
  match bases with
  | [] => (Resolved, acc)
  | b :: bs =>
      match nodeAtPath parentNode b with
      | None => (Unresolved, acc)
      | Some baseNode =>
          if negb (isFullyResolved baseNode) then (Unresolved, acc)
          else match applyObject acc baseNode with
               | None => (Error, acc)
               | Some acc' => applyBases parentNode bs acc'
               end
      end
  end.

(** [ConfigReader::Impl::resolveReferences] and the per-kind functions it
    dispatches to. The node [n] sits at the position [c]; the result is the
    outcome and the node's new value ([*node = ...] in the source). *)
Fixpoint resolveReferences (c : list frame) (n : node) {struct n}
  : ReferenceResolutionResult * node :=
  match n with
  | NNull | NValue _ => (Resolved, n)
  (* resolveArrayReferences *)
  | NArray es =>
      let '(res, es') :=
        (fix go (l : list node) (r : list node) (acc : ReferenceResolutionResult) :=
           match r with
           | [] => (acc, rev l)
           | e :: r' =>
               let '(re, e') := resolveReferences (FArray l r' :: c) e in
               match re with
               | Resolved => go (e' :: l) r' acc
               | Unresolved => go (e' :: l) r' Unresolved
               | Error => (Error, rev_append l (e' :: r'))
               end
           end) [] es Resolved in
      (res, NArray es')
  (* resolveObjectReferences *)
  | NObject ms =>
      let '(res, ms') :=
        (fix go (l : list (string * node)) (r : list (string * node))
                (acc : ReferenceResolutionResult) :=
           match r with
           | [] => (acc, rev l)
           | (k, v) :: r' =>
               let '(re, v') := resolveReferences (FObject k l r' :: c) v in
               match re with
               | Resolved => go ((k, v') :: l) r' acc
               | Unresolved => go ((k, v') :: l) r' Unresolved
               | Error => (Error, rev_append l ((k, v') :: r'))
               end
           end) [] ms Resolved in
      (res, NObject ms')
  (* resolveNodeReference *)
  | NNodeReference ref =>
      match c with
      | [] => (Error, n)
      | f :: c' =>
          match nodeAtPath (c', plug f n) ref with
          | None => (Unresolved, n)
          | Some referencedNode =>
              (if isFullyResolved referencedNode then Resolved else Unresolved,
               referencedNode)
          end
      end
  (* resolveDerivedArrayReferences *)
  | NDerivedArray es =>
      match c with
      | [] => (Error, n)
      | _ :: _ =>
          let '(res, es') :=
            (fix go (l : list node) (r : list node) (acc : ReferenceResolutionResult) :=
               match r with
               | [] => (acc, rev l)
               | e :: r' =>
                   let '(re, e') := resolveReferences (FDerivedArray l r' :: c) e in
                   match re with
                   | Resolved => go (e' :: l) r' acc
                   | Unresolved => go (e' :: l) r' Unresolved
                   | Error => (Error, rev_append l (e' :: r'))
                   end
               end) [] es Resolved in
          match res with
          | Resolved => (Resolved, NArray es')
          | _ => (res, NDerivedArray es')
          end
      end
  (* resolveDerivedObjectReferences *)
  | NDerivedObject bases config =>
      match c with
      | [] => (Error, n)
      | f :: c' =>
          match applyBases (c', plug f n) bases (NObject []) with
          | (Unresolved, _) => (Unresolved, n)
          | (Error, _) => (Error, n)
          | (Resolved, derivedObjectNode) =>
              let '(rc, config') :=
                if isFullyResolved config then (Resolved, config)
                else resolveReferences (FBeside f n :: c') config in
              match rc with
              | Unresolved => (Unresolved, NDerivedObject bases config')
              | Error => (Error, n)
              | Resolved =>
                  if isNull config' then (Resolved, derivedObjectNode)
                  else match applyObject derivedObjectNode config' with
                       | Some d => (Resolved, d)
                       | None => (Error, NDerivedObject bases config')
                       end
              end
          end
      end
  end.

(* ------------------------------------------------------------------------- *)
(** ** The JSON reader *)

(** The member name decorators ([hasDecorator]: the regex ^[&#]). *)
Inductive decorator : Type :=
| NoDecorator
| ValueDecorator        (* '#' *)
| ReferenceDecorator.   (* '&' *)

(** [hasDecorator] and [memberName.mid(1)]: the decorator and the bare name. *)
Definition stripDecorator (key : string) : decorator * string :=
  match key with
  | String c rest =>
      if Ascii.eqb c "&" then (ReferenceDecorator, rest)
      else if Ascii.eqb c "#" then (ValueDecorator, rest)
      else (NoDecorator, key)
  | EmptyString => (NoDecorator, key)
  end.

(** [QString::number] for a non-negative index. *)
Fixpoint digits (fuel n : nat) (acc : string) : string :=
  match fuel with
  | O => acc
  | S f =>
      let acc' := String (ascii_of_nat (48 + n mod 10)) acc in
      if Nat.ltb n 10 then acc' else digits f (n / 10) acc'
  end.

Definition number (n : nat) : string := digits (S n) n "".

(** [ConfigReader::Impl::readReferenceNode]. *)
Definition readReferenceNode (nodeReference currentNodePath : string) : option node :=
  if validateNodeReference nodeReference currentNodePath
  then Some (NNodeReference nodeReference) else None.

(** The 'base' member of a derived object: a string, or a non-empty array of
    strings (part of [readDerivedObjectNode]). *)
Definition readBases (baseValue : json) : option (list string) :=
  match baseValue with
  | JStr s => Some [s]
  | JArr items =>
      let fix go (items : list json) : option (list string) :=
        match items with
        | [] => Some []
        | JStr s :: items' =>
            match go items' with Some bs => Some (s :: bs) | None => None end
        | _ :: _ => None
        end in
      match go items with
      | Some [] => None
      | r => r
      end
  | _ => None
  end.

(** The readers of [ConfigReader::Impl] as one function on the JSON value,
    dispatched on the decorator of the member that holds it:
    - [NoDecorator]: [readJsonValue] (with [readJsonArray], [readJsonObject]);
    - [ValueDecorator]: the explicit Value node of the '#' case;
    - [ReferenceDecorator]: the '&' case, i.e. [readReferenceNode],
      [readDerivedArrayNode] or [readDerivedObjectNode] by the JSON type.
    [None] is the null [std::unique_ptr] returned on failure. *)
Fixpoint readJson (d : decorator) (j : json) (currentNodePath : string) {struct j}
  : option node :=
  match d, j with
  | ValueDecorator, _ => Some (NValue j)
  (* '&' with a string: readReferenceNode *)
  | ReferenceDecorator, JStr s => readReferenceNode s currentNodePath
  (* '&' with an array: readDerivedArrayNode *)
  | ReferenceDecorator, JArr xs =>
      (fix go (xs : list json) (acc : list node) : option node :=
         match xs with
         | [] => Some (NDerivedArray (rev acc))
         | JObj [(key, elementValue)] :: xs' =>
             let '(d', elementName) := stripDecorator key in
             if String.eqb elementName "element" then
               match readJson d' elementValue currentNodePath with
               | Some e => go xs' (e :: acc)
               | None => None
               end
             else None
         | _ :: _ => None
         end) xs []
  (* '&' with an object: readDerivedObjectNode *)
  | ReferenceDecorator, JObj o =>
      match jvalue o "base" with
      | None => None
      | Some baseValue =>
          match readBases baseValue with
          | None => None
          | Some bases =>
              let config :=
                (fix findConfig (ms : list (string * json)) : option node :=
                   match ms with
                   | [] => Some NNull
                   | (k, v) :: ms' =>
                       if String.eqb k "config" then
                         match v with
                         | JObj _ => readJson NoDecorator v currentNodePath
                         | JNull => Some NNull
                         | _ => None
                         end
                       else findConfig ms'
                   end) o in
              match config with
              | Some cfg => Some (NDerivedObject bases cfg)
              | None => None
              end
          end
      end
  | ReferenceDecorator, _ => None
  (* readJsonValue *)
  | NoDecorator, JNull => Some NNull
  | NoDecorator, (JBool _ | JNum _ | JStr _) => Some (NValue j)
  (* readJsonArray *)
  | NoDecorator, JArr xs =>
      (fix go (i : nat) (xs : list json) (acc : list node) : option node :=
         match xs with
         | [] => Some (NArray (rev acc))
         | x :: xs' =>
             match readJson NoDecorator x (appendNodeToPath currentNodePath (number i)) with
             | Some e => go (S i) xs' (e :: acc)
             | None => None
             end
         end) 0 xs []
  (* readJsonObject *)
  | NoDecorator, JObj ms =>
      (fix go (ms : list (string * json)) (acc : list (string * node)) : option node :=
         match ms with
         | [] => Some (NObject acc)
         | (key, v) :: ms' =>
             let '(d', memberName) := stripDecorator key in
             if negb (validateNodeName memberName) then None
             else if containsMember acc memberName then None
             else match readJson d' v (appendNodeToPath currentNodePath memberName) with
                  | Some memberNode => go ms' (setMember acc memberName memberNode)
                  | None => None
                  end
         end) ms []
  end.

Definition readJsonValue (j : json) (currentNodePath : string) : option node :=
  readJson NoDecorator j currentNodePath.

Definition readJsonObject (ms : list (string * json)) (currentNodePath : string)
  : option node :=
  readJson NoDecorator (JObj ms) currentNodePath.

(* ------------------------------------------------------------------------- *)
(** ** Reading a configuration file *)

(** The ways [ConfigReader::Impl::read] and its helpers fail (each returns a
    null pointer after logging the corresponding message). *)
Inductive ReadError : Type :=
| InvalidSourceNodePath
| InvalidDestinationNodePath
| FileNotFound
| ParseFailed
| RootNotObject
| IncludesMemberFailed
| IncludesNotArray
| IncludeNotObject
| IncludeTypeNotString
| IncludeTypeUnsupported
| IncludeFilePathMissing
| IncludeFilePathNotString
| IncludeSourceNodeNotString
| IncludeDestinationNodeNotString
| IncludeReadFailed
| IncludeApplyFailed
| IncludeDepthExceeded
| ConfigMemberFailed
| ConfigNotObject
| ConfigReadFailed
| ApplyConfigFailed
| ResolveReferencesFailed
| FailedToFullyResolve
| TransformFailed.

Inductive outcome (A : Type) : Type :=
| Ok (a : A)
| Err (e : ReadError).
Arguments Ok {A} a.
Arguments Err {A} e.

(** The private state of [ConfigReader::Impl]: a [uint32_t]. *)
Record Impl : Type := mkImpl { m_referenceResolutionMaxCycles : N }.

(** [ConfigReader::Impl::Impl]: the default is 100 cycles. *)
Definition defaultImpl : Impl := mkImpl 100.

(** [setReferenceResolutionMaxCycles]: the [Q_ASSERT_X] rejects zero. *)
Definition setReferenceResolutionMaxCycles (impl : Impl) (v : N) : option Impl :=
  if N.eqb v 0 then None else Some (mkImpl v).

(** The resolution loop of [read]:
    [for (i = 0; i < max && result == Unresolved; i++) switch (resolveReferences(..))]. *)
Fixpoint resolveLoop (cycles : nat) (config : node) : outcome node :=
  match cycles with
  | O => Err FailedToFullyResolve
  | S k =>
      match resolveReferences [] config with
      | (Resolved, config') => Ok config'
      | (Unresolved, config') => resolveLoop k config'
      | (Error, _) => Err ResolveReferencesFailed
      end
  end.

(** The Object chain built by [transformConfig] from the destination names. *)
Fixpoint destinationChain (names : list string) (sourceConfig : node) : option node :=
  match names with
  | [] => Some (NObject [])
  | [k] => if validateNodeName k then Some (NObject [(k, sourceConfig)]) else None
  | k :: ks =>
      if validateNodeName k then
        match destinationChain ks sourceConfig with
        | Some t => Some (NObject [(k, t)])
        | None => None
        end
      else None
  end.

(** [ConfigReader::Impl::transformConfig]. *)
Definition transformConfig (config : node) (sourceNode destinationNode : string)
  : outcome node :=
  if String.eqb sourceNode "/" && String.eqb destinationNode "/" then Ok config
  else
    let sourceConfig :=
      if String.eqb sourceNode "/" then Some config else nodeAtPath ([], config) sourceNode in
    match sourceConfig with
    | None => Err TransformFailed
    | Some sc =>
        if String.eqb destinationNode "/" then Ok sc
        else match destinationChain (tl (split_slash destinationNode)) sc with
             | Some t => Ok t
             | None => Err TransformFailed
             end
    end.

(** [ConfigReader::Impl::readConfigMember]. A missing member is
    [QJsonValue::Undefined], for which [isNull()] is false. *)
Definition readConfigMember (rootObject : list (string * json)) : outcome node :=
  match jvalue rootObject "config" with
  | Some JNull => Ok NNull
  | Some (JObj o) =>
      match readJsonObject o "/" with
      | Some config => Ok config
      | None => Err ConfigReadFailed
      end
  | _ => Err ConfigNotObject
  end.

(** The 'type' of an include: a missing or null member is the default. *)
Definition includeType (includeObject : list (string * json)) : outcome string :=
  match jvalue includeObject "type" with
  | None | Some JNull => Ok "CppConfigFramework"
  | Some (JStr s) => Ok s
  | Some _ => Err IncludeTypeNotString
  end.

(** An optional node path member of an include, "/" by default. *)
Definition includeNodePath (includeObject : list (string * json)) (k : string)
  (e : ReadError) : outcome string :=
  match jvalue includeObject k with
  | None => Ok "/"
  | Some (JStr s) => Ok s
  | Some _ => Err e
  end.

Section Reader.

(** The file system layer, out of scope of the core: the parsed contents of the
    file at an absolute path ([None] when it is missing or cannot be opened,
    [Some None] when [QJsonDocument::fromJson] reports an error), the absolute
    file path of [filePath] from [workingDir] ([QDir::cleanPath] of
    [QDir::absoluteFilePath]) and the directory of a file
    ([QFileInfo::absoluteDir]). *)
Variable fileContents : string -> option (option json).
Variable absoluteFilePath : string -> string -> string.
Variable absoluteDir : string -> string.
Variable impl : Impl.

(** One iteration of the loop of [readIncludesMember]; [readFile] is the
    recursive [read]. *)
Definition readIncludeEntry
  (readFile : string -> string -> string -> string -> outcome node)
  (workingDir : string) (includesConfig : node) (includeValue : json) : outcome node :=
  match includeValue with
  | JObj includeObject =>
      match includeType includeObject with
      | Err e => Err e
      | Ok type =>
          if negb (String.eqb type "CppConfigFramework") then Err IncludeTypeUnsupported
          else match jvalue includeObject "file_path" with
          | None => Err IncludeFilePathMissing
          | Some (JStr filePath) =>
              match includeNodePath includeObject "source_node" IncludeSourceNodeNotString with
              | Err e => Err e
              | Ok sourceNode =>
                  match includeNodePath includeObject "destination_node"
                          IncludeDestinationNodeNotString with
                  | Err e => Err e
                  | Ok destinationNode =>
                      match readFile filePath workingDir sourceNode destinationNode with
                      | Err _ => Err IncludeReadFailed
                      | Ok config =>
                          match applyObject includesConfig config with
                          | Some c => Ok c
                          | None => Err IncludeApplyFailed
                          end
                      end
                  end
              end
          | Some _ => Err IncludeFilePathNotString
          end
      end
  | _ => Err IncludeNotObject
  end.

Fixpoint readIncludeEntries
  (readFile : string -> string -> string -> string -> outcome node)
  (workingDir : string) (includesConfig : node) (items : list json) : outcome node :=
  match items with
  | [] => Ok includesConfig
  | it :: its =>
      match readIncludeEntry readFile workingDir includesConfig it with
      | Err e => Err e
      | Ok c => readIncludeEntries readFile workingDir c its
      end
  end.

(** [ConfigReader::Impl::readIncludesMember]. *)
Definition readIncludesMember
  (readFile : string -> string -> string -> string -> outcome node)
  (rootObject : list (string * json)) (workingDir : string) : outcome node :=
  match jvalue rootObject "includes" with
  | None | Some JNull => Ok (NObject [])
  | Some (JArr items) => readIncludeEntries readFile workingDir (NObject []) items
  | Some _ => Err IncludesNotArray
  end.

(** [ConfigReader::Impl::read]. The C++ recursion through includes is
    unbounded; [fuel] bounds the include depth of the model. *)
Fixpoint read (fuel : nat) (filePath workingDir sourceNode destinationNode : string)
  : outcome node :=
  if negb (isAbsoluteNodePath sourceNode && validateNodePath sourceNode)
  then Err InvalidSourceNodePath
  else if negb (isAbsoluteNodePath destinationNode && validateNodePath destinationNode)
  then Err InvalidDestinationNodePath
  else
    let path := absoluteFilePath workingDir filePath in
    match fileContents path with
    | None => Err FileNotFound
    | Some None => Err ParseFailed
    | Some (Some (JObj rootObject)) =>
        let readFile fp wd s d :=
          match fuel with O => Err IncludeDepthExceeded | S f => read f fp wd s d end in
        match readIncludesMember readFile rootObject (absoluteDir path) with
        | Err _ => Err IncludesMemberFailed
        | Ok completeConfig =>
            match readConfigMember rootObject with
            | Err _ => Err ConfigMemberFailed
            | Ok configMember =>
                match applyObject completeConfig configMember with
                | None => Err ApplyConfigFailed
                | Some completeConfig' =>
                    match resolveLoop (N.to_nat (m_referenceResolutionMaxCycles impl))
                            completeConfig' with
                    | Err e => Err e
                    | Ok resolved => transformConfig resolved sourceNode destinationNode
                    end
                end
            end
        end
    | Some (Some _) => Err RootNotObject
    end.

End Reader.

(* ------------------------------------------------------------------------- *)
(** ** The element loops, as functions of the per-element step *)

(** The loop of [resolveArrayReferences] (and of the element loop of
    [resolveDerivedArrayReferences]), with the frame maker of the container. *)
Fixpoint resolveList (rs : list frame -> node -> ReferenceResolutionResult * node)
  (mk : list node -> list node -> frame) (c : list frame)
  (l r : list node) (acc : ReferenceResolutionResult)
  : ReferenceResolutionResult * list node :=
  match r with
  | [] => (acc, rev l)
  | e :: r' =>
      let '(re, e') := rs (mk l r' :: c) e in
      match re with
      | Resolved => resolveList rs mk c (e' :: l) r' acc
      | Unresolved => resolveList rs mk c (e' :: l) r' Unresolved
      | Error => (Error, rev_append l (e' :: r'))
      end
  end.

(** The loop of [resolveObjectReferences]. *)
Fixpoint resolveMembers (rs : list frame -> node -> ReferenceResolutionResult * node)
  (c : list frame) (l r : list (string * node)) (acc : ReferenceResolutionResult)
  : ReferenceResolutionResult * list (string * node) :=
  match r with
  | [] => (acc, rev l)
  | (k, v) :: r' =>
      let '(re, v') := rs (FObject k l r' :: c) v in
      match re with
      | Resolved => resolveMembers rs c ((k, v') :: l) r' acc
      | Unresolved => resolveMembers rs c ((k, v') :: l) r' Unresolved
      | Error => (Error, rev_append l ((k, v') :: r'))
      end
  end.

(** The member loop of [readJsonObject]. *)
Fixpoint readMembers (rj : decorator -> json -> string -> option node)
  (currentNodePath : string) (ms : list (string * json)) (acc : list (string * node))
  : option node :=
  match ms with
  | [] => Some (NObject acc)
  | (key, v) :: ms' =>
      let '(d', memberName) := stripDecorator key in
      if negb (validateNodeName memberName) then None
      else if containsMember acc memberName then None
      else match rj d' v (appendNodeToPath currentNodePath memberName) with
           | Some memberNode => readMembers rj currentNodePath ms' (setMember acc memberName memberNode)
           | None => None
           end
  end.

(** Lookup of a member path (a list of names) through nested Objects. *)
Fixpoint lookupPath (n : node) (names : list string) : option node :=
  match names with
  | [] => Some n
  | k :: ks =>
      match n with
      | NObject ms => match member ms k with Some v => lookupPath v ks | None => None end
      | _ => None
      end
  end.

Definition isObject (n : node) : bool := match n with NObject _ => true | _ => false end.

(** The tree after [i] passes of [resolveReferences] on the root, and the
    outcome of pass number [i] (counting from 0). *)
Fixpoint afterPasses (i : nat) (n : node) : node :=
  match i with
  | O => n
  | S i' => afterPasses i' (snd (resolveReferences [] n))
  end.

Definition passOutcome (i : nat) (n : node) : ReferenceResolutionResult :=
  fst (resolveReferences [] (afterPasses i n)).

(* ------------------------------------------------------------------------- *)
(** ** The Object container: std::unordered_map (libstdc++) *)

Section UnorderedMap.

Variable V : Type.

(** [_M_bucket_index] for the current bucket count. *)
Variable bucket : string -> nat.

(** [ConfigNodeData::ObjectNodeData] is a [std::unordered_map]. In libstdc++
    its nodes form one singly linked list, which is the iteration order; the
    nodes of one bucket are adjacent. A new node goes to the beginning of its
    bucket ([_M_insert_bucket_begin]): before the first node of the same bucket
    or, when the bucket is empty, at the front of the list. *)
Fixpoint insertBucketBegin (k : string) (v : V) (l : list (string * V))
  : option (list (string * V)) :=
  match l with
  | [] => None
  | (k', v') :: l' =>
      if Nat.eqb (bucket k') (bucket k) then Some ((k, v) :: l)
      else match insertBucketBegin k v l' with
           | Some l'' => Some ((k', v') :: l'')
           | None => None
           end
  end.

(** Assignment to an existing key: the value changes, the node stays. *)
Fixpoint assignExisting (k : string) (v : V) (l : list (string * V)) : list (string * V) :=
  match l with
  | [] => []
  | (k', v') :: l' =>
      if String.eqb k k' then (k', v) :: l' else (k', v') :: assignExisting k v l'
  end.

(** [m_object[name] = value]. *)
Definition hashSet (k : string) (v : V) (l : list (string * V)) : list (string * V) :=
  if existsb (fun m => String.eqb k (fst m)) l then assignExisting k v l
  else match insertBucketBegin k v l with
       | Some l' => l'
       | None => (k, v) :: l
       end.

(** The member names in iteration order. *)
Definition hashKeys (l : list (string * V)) : list string := map fst l.

(** [find]: the first node of the list with the key. *)
Fixpoint hashFind (k : string) (l : list (string * V)) : option V :=
  match l with
  | [] => None
  | (k', v') :: l' => if String.eqb k k' then Some v' else hashFind k l'
  end.

End UnorderedMap.

(* ------------------------------------------------------------------------- *)
(** ** The factory registry *)

Section Factory.

Variable ConfigReaderBase : Type.

(** [ConfigReaderFactory::registerConfigReader]; the null [std::unique_ptr]
    is [None]. *)
Definition registerConfigReader (type : string) (configReader : option ConfigReaderBase)
  (m_configReaders : gmap string ConfigReaderBase) : bool * gmap string ConfigReaderBase :=
  if String.eqb type "" then (false, m_configReaders)
  else match configReader with
       | None => (false, m_configReaders)
       | Some r => (true, <[type := r]> m_configReaders)
       end.

(** The dispatch of [ConfigReaderFactory::readConfig]: the reader registered
    for the type, or [None] ("Unsupported configuration type"). *)
Definition dispatchConfigReader (m_configReaders : gmap string ConfigReaderBase)
  (type : string) : option ConfigReaderBase :=
  m_configReaders !! type.

(** [ConfigReaderFactory::ConfigReaderFactory], given the [ConfigReader]
    instance it creates. *)
Definition newConfigReaderFactory (configReader : ConfigReaderBase)
  : gmap string ConfigReaderBase :=
  snd (registerConfigReader "CppConfigFramework" (Some configReader) ∅).

(** [ConfigReaderFactory::readConfig]: the reader registered for the type
    reads the configuration ([readWith] stands for the virtual
    [ConfigReaderBase::read] applied to the remaining arguments, giving the
    result and the error text); an unregistered type gives a null result and
    the error "Unsupported configuration type: " followed by the type. *)
Definition readConfig {Result : Type}
  (readWith : ConfigReaderBase -> option Result * option string)
  (m_configReaders : gmap string ConfigReaderBase) (type : string)
  : option Result * option string :=
  match m_configReaders !! type with
  | None => (None, Some (String.append "Unsupported configuration type: " type))
  | Some configReader => readWith configReader
  end.

End Factory.

(* ------------------------------------------------------------------------- *)
(** ** Sample documents *)

(** A small file system: file names are absolute paths. *)
Definition sampleFiles (p : string) : option (option json) :=
  if String.eqb p "base.json" then
    Some (Some (JObj [("config", JObj [("x", JNum 1); ("y", JNum 2)])]))
  else if String.eqb p "top.json" then
    Some (Some (JObj [("includes", JArr [JObj [("file_path", JStr "base.json")]]);
                      ("config", JObj [("y", JNum 9); ("z", JNum 3)])]))
  else if String.eqb p "nested_base.json" then
    Some (Some (JObj [("config", JObj [("a", JObj [("u", JNum 1)])])]))
  else if String.eqb p "nested_top.json" then
    Some (Some (JObj [("includes", JArr [JObj [("file_path", JStr "nested_base.json")]]);
                      ("config", JObj [("a", JObj [("v", JNum 2)])])]))
  else if String.eqb p "self.json" then
    Some (Some (JObj [("config", JObj [("&x", JStr "/x")])]))
  else if String.eqb p "mutual.json" then
    Some (Some (JObj [("config", JObj [("&x", JStr "/y"); ("&y", JStr "/x")])]))
  else if String.eqb p "derived.json" then
    Some (Some (JObj [("config",
      JObj [("a", JObj [("m", JNum 1)]);
            ("b", JObj [("m", JNum 2); ("n", JNum 3)]);
            ("&d", JObj [("base", JArr [JStr "/a"; JStr "/b"]);
                         ("config", JObj [("n", JNum 7)])])])]))
  else if String.eqb p "nullconfig.json" then
    Some (Some (JObj [("includes", JArr [JObj [("file_path", JStr "base.json")]]);
                      ("config", JNull)]))
  else if String.eqb p "noconfig.json" then
    Some (Some (JObj [("includes", JArr [JObj [("file_path", JStr "base.json")]])]))
  else None.

(** [read] over the sample files, paths taken as they are. *)
Definition readSample (impl : Impl) (filePath : string) : outcome node :=
  read sampleFiles (fun _ fp => fp) (fun _ => "") impl 4 filePath "" "/" "/".

(** Induction on nodes, with the hypotheses on the children of the lists. *)
Fixpoint node_ind' (P : node -> Prop)
  (HNull : P NNull) (HValue : forall v, P (NValue v))
  (HArray : forall es, Forall P es -> P (NArray es))
  (HObject : forall ms, Forall (fun m => P (snd m)) ms -> P (NObject ms))
  (HRef : forall r, P (NNodeReference r))
  (HDArray : forall es, Forall P es -> P (NDerivedArray es))
  (HDObject : forall bs c, P c -> P (NDerivedObject bs c))
  (n : node) {struct n} : P n :=
  let rec := node_ind' P HNull HValue HArray HObject HRef HDArray HDObject in
  match n with
  | NNull => HNull
  | NValue v => HValue v
  | NArray es =>
      HArray es ((fix go (es : list node) : Forall P es :=
                    match es with
                    | [] => @List.Forall_nil _ P
                    | e :: es' => @List.Forall_cons _ P e es' (rec e) (go es')
                    end) es)
  | NObject ms =>
      HObject ms ((fix go (ms : list (string * node)) : Forall (fun m => P (snd m)) ms :=
                     match ms with
                     | [] => @List.Forall_nil _ _
                     | m :: ms' => @List.Forall_cons _ _ m ms' (rec (snd m)) (go ms')
                     end) ms)
  | NNodeReference r => HRef r
  | NDerivedArray es =>
      HDArray es ((fix go (es : list node) : Forall P es :=
                     match es with
                     | [] => @List.Forall_nil _ P
                     | e :: es' => @List.Forall_cons _ P e es' (rec e) (go es')
                     end) es)
  | NDerivedObject bs c => HDObject bs c (rec c)
  end.

(** The member loop of [applyMembers], as a function of the recursive merge. *)
Fixpoint applyMemberList (am : list (string * node) -> node -> list (string * node))
  (sm dm : list (string * node)) : list (string * node) :=
  match sm with
  | [] => dm
  | (k, v) :: sm' =>
      applyMemberList am sm'
        (match member dm k, v with
         | Some (NObject dm'), NObject _ => setMember dm k (NObject (am dm' v))
         | _, _ => setMember dm k v
         end)
  end.

(** Induction on JSON values, with the hypotheses on the children. *)
Fixpoint json_ind' (P : json -> Prop)
  (HNull : P JNull) (HBool : forall b, P (JBool b)) (HNum : forall z, P (JNum z))
  (HStr : forall s, P (JStr s))
  (HArr : forall xs, Forall P xs -> P (JArr xs))
  (HObj : forall ms, Forall (fun m => P (snd m)) ms -> P (JObj ms))
  (j : json) {struct j} : P j :=
  let rec := json_ind' P HNull HBool HNum HStr HArr HObj in
  match j with
  | JNull => HNull
  | JBool b => HBool b
  | JNum z => HNum z
  | JStr s => HStr s
  | JArr xs =>
      HArr xs ((fix go (xs : list json) : Forall P xs :=
                  match xs with
                  | [] => @List.Forall_nil _ P
                  | x :: xs' => @List.Forall_cons _ P x xs' (rec x) (go xs')
                  end) xs)
  | JObj ms =>
      HObj ms ((fix go (ms : list (string * json)) : Forall (fun m => P (snd m)) ms :=
                  match ms with
                  | [] => @List.Forall_nil _ _
                  | m :: ms' => @List.Forall_cons _ _ m ms' (rec (snd m)) (go ms')
                  end) ms)
  end.

(** Positions reached from a root by descending into Object members. *)
Definition objectFrames (c : list frame) : Prop :=
  Forall (fun f => exists k l r, f = FObject k l r) c.

(** No name occurs twice in a list of member names. *)
Fixpoint uniqueKeys (ks : list string) : bool :=
  match ks with
  | [] => true
  | k :: ks' => negb (existsb (String.eqb k) ks') && uniqueKeys ks'
  end.

(** Every Object of the tree has distinct member names, as the JSON reader
    ensures ([containsMember] check of [readJsonObject]). *)
Fixpoint wfNode (n : node) : bool :=
  match n with
  | NObject ms => uniqueKeys (map fst ms) && forallb (fun m => wfNode (snd m)) ms
  | _ => true
  end.

(** A member after a resolution pass: the same name, and the value it had or
    the result of resolving that value at some position. *)
Definition resolvedFrom (rs : list frame -> node -> ReferenceResolutionResult * node)
  (m m' : string * node) : Prop :=
  fst m' = fst m /\ (snd m' = snd m \/ exists c', snd m' = snd (rs c' (snd m))).


(* ========================================================================= *)
(** * Properties *)

(* ------------------------------------------------------------------------- *)
(** ** Unfolding the element loops *)

Lemma resolveReferences_NArray c es :
  resolveReferences c (NArray es) =
  (let '(res, es') := resolveList resolveReferences FArray c [] es Resolved in
   (res, NArray es')).
Proof.
  simpl.
  match goal with |- (let '(_, _) := ?F [] es Resolved in _) = _ =>
    assert (E : forall l r acc, F l r acc = resolveList resolveReferences FArray c l r acc) end.
  { intros l r; revert l; induction r as [|e r IH]; intros l acc; [reflexivity|].
    simpl. destruct (resolveReferences _ e) as [[] e']; auto. }
  rewrite E. reflexivity.
Qed.

Lemma resolveReferences_NObject c ms :
  resolveReferences c (NObject ms) =
  (let '(res, ms') := resolveMembers resolveReferences c [] ms Resolved in
   (res, NObject ms')).
Proof.
  simpl.
  match goal with |- (let '(_, _) := ?F [] ms Resolved in _) = _ =>
    assert (E : forall l r acc, F l r acc = resolveMembers resolveReferences c l r acc) end.
  { intros l r; revert l; induction r as [|[k v] r IH]; intros l acc; [reflexivity|].
    simpl. destruct (resolveReferences _ v) as [[] v']; auto. }
  rewrite E. reflexivity.
Qed.

Lemma resolveReferences_NDerivedArray f c es :
  resolveReferences (f :: c) (NDerivedArray es) =
  (let '(res, es') := resolveList resolveReferences FDerivedArray (f :: c) [] es Resolved in
   match res with
   | Resolved => (Resolved, NArray es')
   | _ => (res, NDerivedArray es')
   end).
Proof.
  simpl.
  match goal with |- (let '(_, _) := ?F [] es Resolved in _) = _ =>
    assert (E : forall l r acc,
               F l r acc = resolveList resolveReferences FDerivedArray (f :: c) l r acc) end.
  { intros l r; revert l; induction r as [|e r IH]; intros l acc; [reflexivity|].
    simpl. destruct (resolveReferences _ e) as [[] e']; auto. }
  rewrite E. reflexivity.
Qed.

Lemma applyMembers_NObject dm sm :
  applyMembers dm (NObject sm) = applyMemberList applyMembers sm dm.
Proof.
  simpl.
  match goal with |- ?F sm dm = _ =>
    assert (E : forall sm dm, F sm dm = applyMemberList applyMembers sm dm) end.
  { intros sm'; induction sm' as [|[k v] sm' IH]; intros dm'; [reflexivity|].
    simpl. rewrite IH. reflexivity. }
  apply E.
Qed.

Lemma readJsonObject_members ms p :
  readJson NoDecorator (JObj ms) p = readMembers readJson p ms [].
Proof.
  simpl.
  match goal with |- ?F ms [] = _ =>
    assert (E : forall ms acc, F ms acc = readMembers readJson p ms acc) end.
  { intros ms'; induction ms' as [|[k v] ms' IH]; intros acc; [reflexivity|].
    simpl. destruct (stripDecorator k) as [d' nm].
    destruct (negb (validateNodeName nm)); [reflexivity|].
    destruct (containsMember acc nm); [reflexivity|].
    destruct (readJson d' v _); [apply IH|reflexivity]. }
  apply E.
Qed.

(* ------------------------------------------------------------------------- *)
(** ** Fully resolved trees *)

Lemma setMember_fully ms k v :
  forallb (fun m => isFullyResolved (snd m)) ms = true ->
  isFullyResolved v = true ->
  forallb (fun m => isFullyResolved (snd m)) (setMember ms k v) = true.
Proof.
  induction ms as [|[k' v'] ms IH]; simpl; intros Hms Hv.
  - rewrite Hv. reflexivity.
  - apply andb_prop in Hms as [H1 H2].
    destruct (String.eqb k k'); simpl.
    + rewrite Hv, H2. reflexivity.
    + rewrite H1, IH; auto.
Qed.

Lemma member_fully ms k v :
  forallb (fun m => isFullyResolved (snd m)) ms = true ->
  member ms k = Some v -> isFullyResolved v = true.
Proof.
  induction ms as [|[k' v'] ms IH]; simpl; intros Hms Hm; [discriminate|].
  apply andb_prop in Hms as [H1 H2].
  destruct (String.eqb k k'); [injection Hm as <-; exact H1 | auto].
Qed.

Lemma applyMembers_fully src : forall dm,
  forallb (fun m => isFullyResolved (snd m)) dm = true ->
  isFullyResolved src = true ->
  forallb (fun m => isFullyResolved (snd m)) (applyMembers dm src) = true.
Proof.
  induction src as [| | | sm IH | | |] using node_ind'; intros dm Hdm Hsrc;
    try exact Hdm.
  rewrite applyMembers_NObject. simpl in Hsrc.
  revert dm Hdm. induction sm as [|[k v] sm IHsm]; intros dm Hdm; [exact Hdm|].
  simpl. simpl in Hsrc. apply andb_prop in Hsrc as [Hv Hsm].
  inversion IH as [|? ? IHv IHrest]; subst.
  apply IHsm; auto.
  destruct (member dm k) as [[| | | dm' | | |]|] eqn:Hm; destruct v;
    try (apply setMember_fully; auto; fail).
  apply setMember_fully; auto. simpl. apply IHv; auto.
  apply (member_fully dm k (NObject dm')); auto.
Qed.

Lemma applyObject_fully a b d :
  isFullyResolved a = true -> isFullyResolved b = true ->
  applyObject a b = Some d -> isFullyResolved d = true.
Proof.
  intros Ha Hb H.
  destruct a as [| | |dm| | |], b as [| | |sm| | |]; try discriminate.
  - injection H as <-. exact Ha.
  - injection H as <-. exact (applyMembers_fully (NObject sm) dm Ha Hb).
Qed.

Lemma applyBases_fully P bs : forall acc acc',
  isFullyResolved acc = true ->
  applyBases P bs acc = (Resolved, acc') -> isFullyResolved acc' = true.
Proof.
  induction bs as [|b bs IH]; simpl; intros acc acc' Hacc H.
  - injection H as <-. exact Hacc.
  - destruct (nodeAtPath P b) as [bn|]; [|discriminate].
    destruct (isFullyResolved bn) eqn:Hbn; simpl in H; [|discriminate].
    destruct (applyObject acc bn) as [acc1|] eqn:Ha; [|discriminate].
    apply (IH acc1); [exact (applyObject_fully acc bn acc1 Hacc Hbn Ha) | exact H].
Qed.

Lemma resolveList_not_resolved rs mk c r : forall l es',
  resolveList rs mk c l r Unresolved <> (Resolved, es').
Proof.
  induction r as [|e r IH]; simpl; intros l es' H; [discriminate|].
  destruct (rs (mk l r :: c) e) as [[] e']; [apply (IH _ _ H)|apply (IH _ _ H)|discriminate].
Qed.

Lemma resolveList_resolved (P : node -> Prop) rs mk c r : forall l acc es',
  (forall e c' e', In e r -> rs c' e = (Resolved, e') -> P e') ->
  Forall P l ->
  resolveList rs mk c l r acc = (Resolved, es') -> Forall P es'.
Proof.
  induction r as [|e r IH]; simpl; intros l acc es' Hr Hl H.
  - injection H as _ <-. apply Forall_rev. exact Hl.
  - destruct (rs (mk l r :: c) e) as [[] e'] eqn:He.
    + apply (IH (e' :: l) acc); [intros x c' x' Hin Hx; apply (Hr x c' x'); [right; exact Hin | exact Hx]
                                | constructor; [apply (Hr e (mk l r :: c) e'); [left; reflexivity | exact He] | exact Hl]
                                | exact H].
    + exfalso. eapply resolveList_not_resolved; eauto.
    + discriminate.
Qed.

Lemma resolveMembers_not_resolved rs c r : forall l ms',
  resolveMembers rs c l r Unresolved <> (Resolved, ms').
Proof.
  induction r as [|[k v] r IH]; simpl; intros l ms' H; [discriminate|].
  destruct (rs (FObject k l r :: c) v) as [[] v']; [apply (IH _ _ H)|apply (IH _ _ H)|discriminate].
Qed.

Lemma resolveMembers_resolved (P : node -> Prop) rs c r : forall l acc ms',
  (forall k v c' v', In (k, v) r -> rs c' v = (Resolved, v') -> P v') ->
  Forall (fun m => P (snd m)) l ->
  resolveMembers rs c l r acc = (Resolved, ms') -> Forall (fun m => P (snd m)) ms'.
Proof.
  induction r as [|[k v] r IH]; simpl; intros l acc ms' Hr Hl H.
  - injection H as _ <-. apply Forall_rev. exact Hl.
  - destruct (rs (FObject k l r :: c) v) as [[] v'] eqn:Hv.
    + apply (IH ((k, v') :: l) acc);
        [intros k' x c' x' Hin Hx; apply (Hr k' x c' x'); [right; exact Hin | exact Hx]
        | constructor; [apply (Hr k v (FObject k l r :: c) v'); [left; reflexivity | exact Hv] | exact Hl]
        | exact H].
    + exfalso. eapply resolveMembers_not_resolved; eauto.
    + discriminate.
Qed.

Lemma forallb_of_Forall {A} (f : A -> bool) l :
  Forall (fun x => f x = true) l -> forallb f l = true.
Proof. induction 1; simpl; auto. rewrite H, IHForall. reflexivity. Qed.

(** A pass that reports [Resolved] leaves a fully resolved node. *)
Lemma resolveReferences_fully n : forall c n',
  resolveReferences c n = (Resolved, n') -> isFullyResolved n' = true.
Proof.
  induction n as [|v|es IH|ms IH|r|es IH|bs cfg IH] using node_ind'; intros c n' H.
  - simpl in H. injection H as <-. reflexivity.
  - simpl in H. injection H as <-. reflexivity.
  - rewrite resolveReferences_NArray in H.
    destruct (resolveList resolveReferences FArray c [] es Resolved) as [res es'] eqn:E.
    injection H as -> <-. simpl. apply forallb_of_Forall.
    apply (resolveList_resolved (fun e => isFullyResolved e = true)
             resolveReferences FArray c es [] Resolved es'); [|constructor|exact E].
    intros e c' e' Hin He. rewrite List.Forall_forall in IH. exact (IH e Hin c' e' He).
  - rewrite resolveReferences_NObject in H.
    destruct (resolveMembers resolveReferences c [] ms Resolved) as [res ms'] eqn:E.
    injection H as -> <-. simpl. apply forallb_of_Forall.
    apply (resolveMembers_resolved (fun e => isFullyResolved e = true)
             resolveReferences c ms [] Resolved ms'); [|constructor|exact E].
    intros k v c' v' Hin Hv. rewrite List.Forall_forall in IH. exact (IH (k, v) Hin c' v' Hv).
  - simpl in H. destruct c as [|f c']; [discriminate|].
    destruct (nodeAtPath _ r) as [t|]; [|discriminate].
    destruct (isFullyResolved t) eqn:Ht; [injection H as <-; exact Ht|discriminate].
  - destruct c as [|f c']; [discriminate|].
    rewrite resolveReferences_NDerivedArray in H.
    destruct (resolveList resolveReferences FDerivedArray (f :: c') [] es Resolved)
      as [res es'] eqn:E.
    destruct res; [|discriminate|discriminate].
    injection H as <-. simpl. apply forallb_of_Forall.
    apply (resolveList_resolved (fun e => isFullyResolved e = true)
             resolveReferences FDerivedArray (f :: c') es [] Resolved es'); [|constructor|exact E].
    intros e c'' e' Hin He. rewrite List.Forall_forall in IH. exact (IH e Hin c'' e' He).
  - simpl in H. destruct c as [|f c']; [discriminate|].
    destruct (applyBases _ bs (NObject [])) as [[] acc] eqn:Hb; try discriminate.
    assert (Hacc : isFullyResolved acc = true)
      by (eapply applyBases_fully; [|exact Hb]; reflexivity).
    destruct (isFullyResolved cfg) eqn:Hcfg.
    + destruct (isNull cfg).
      * injection H as <-. exact Hacc.
      * destruct (applyObject acc cfg) as [d|] eqn:Ha; [|discriminate].
        injection H as <-. exact (applyObject_fully acc cfg d Hacc Hcfg Ha).
    + destruct (resolveReferences _ cfg) as [[] cfg'] eqn:Hr; try discriminate.
      assert (Hcfg' : isFullyResolved cfg' = true) by (eapply IH; eauto).
      destruct (isNull cfg').
      * injection H as <-. exact Hacc.
      * destruct (applyObject acc cfg') as [d|] eqn:Ha; [|discriminate].
        injection H as <-. exact (applyObject_fully acc cfg' d Hacc Hcfg' Ha).
Qed.

Lemma resolveLoop_fully k : forall n t,
  resolveLoop k n = Ok t -> isFullyResolved t = true.
Proof.
  induction k as [|k IH]; simpl; intros n t H; [discriminate|].
  destruct (resolveReferences [] n) as [[] n'] eqn:E; try discriminate.
  - injection H as <-. exact (resolveReferences_fully n [] n' E).
  - exact (IH n' t H).
Qed.

Lemma split_member_spec k ms : forall acc l v r,
  split_member k acc ms = Some (l, v, r) -> rev_append acc ms = rev_append l ((k, v) :: r).
Proof.
  induction ms as [|[k' v'] ms IH]; simpl; intros acc l v r H; [discriminate|].
  destruct (String.eqb k k') eqn:Ek.
  - apply String.eqb_eq in Ek as <-. injection H as <- <- <-. reflexivity.
  - apply (IH _ _ _ _ H).
Qed.

Lemma walk_objectFrames segs : forall c n c' n',
  objectFrames c -> walk segs (c, n) = Some (c', n') ->
  objectFrames c' /\ rootNode c' n' = rootNode c n.
Proof.
  induction segs as [|s segs IH]; simpl; intros c n c' n' Hc H.
  - injection H as <- <-. split; [exact Hc | reflexivity].
  - destruct (String.eqb s "..").
    + destruct c as [|f c0]; simpl in H; [discriminate|].
      inversion Hc as [|? ? _ Hc0]; subst.
      destruct (IH c0 (plug f n) c' n' Hc0 H) as [H1 H2]. split; [exact H1|exact H2].
    + destruct n as [| | |ms| | |]; simpl in H; try discriminate.
      destruct (split_member s [] ms) as [[[l v] r]|] eqn:Hs; [|discriminate].
      assert (Hc' : objectFrames (FObject s l r :: c))
        by (constructor; [exists s, l, r; reflexivity | exact Hc]).
      destruct (IH _ _ c' n' Hc' H) as [H1 H2]. split; [exact H1|].
      rewrite H2. simpl. apply split_member_spec in Hs. simpl in Hs. rewrite <- Hs.
      reflexivity.
Qed.

Lemma forallb_rev_append {A} (f : A -> bool) l m :
  forallb f (rev_append l m) = forallb f l && forallb f m.
Proof.
  revert m; induction l as [|x l IH]; intros m; simpl; [reflexivity|].
  rewrite IH. simpl. destruct (f x), (forallb f l), (forallb f m); reflexivity.
Qed.

Lemma fully_at_objectFrames c : forall n,
  objectFrames c -> isFullyResolved (rootNode c n) = true -> isFullyResolved n = true.
Proof.
  induction c as [|f c IH]; simpl; intros n Hc H; [exact H|].
  inversion Hc as [|? ? [k [l [r ->]]] Hc0]; subst.
  specialize (IH _ Hc0 H). simpl in IH.
  rewrite forallb_rev_append in IH. simpl in IH.
  destruct (isFullyResolved n); [reflexivity|].
  rewrite andb_false_r in IH. discriminate.
Qed.

Lemma nodeAtPath_root_fully t p x :
  isFullyResolved t = true -> nodeAtPath ([], t) p = Some x -> isFullyResolved x = true.
Proof.
  unfold nodeAtPath. intros Ht H.
  replace (if isAbsoluteNodePath p then ([], rootNode (fst (@nil frame, t)) (snd (@nil frame, t)))
           else ([], t)) with (@nil frame, t) in H
    by (destruct (isAbsoluteNodePath p); reflexivity).
  destruct (walk (segments p) ([], t)) as [[c' n']|] eqn:W; [|discriminate].
  injection H as <-. simpl.
  destruct (walk_objectFrames _ _ _ _ _ (@List.Forall_nil _ _) W) as [Hc Hr].
  apply (fully_at_objectFrames c' n' Hc). rewrite Hr. exact Ht.
Qed.

Lemma destinationChain_fully names : forall sc t,
  isFullyResolved sc = true -> destinationChain names sc = Some t -> isFullyResolved t = true.
Proof.
  induction names as [|k ks IH]; simpl; intros sc t Hsc H.
  - injection H as <-. reflexivity.
  - destruct ks as [|k2 ks2].
    + destruct (validateNodeName k); [|discriminate].
      injection H as <-. simpl. rewrite Hsc. reflexivity.
    + destruct (validateNodeName k); [|discriminate].
      destruct (destinationChain (k2 :: ks2) sc) as [t'|] eqn:E; [|discriminate].
      injection H as <-. simpl. rewrite (IH sc t' Hsc E). reflexivity.
Qed.

Lemma transformConfig_fully config s d t :
  isFullyResolved config = true -> transformConfig config s d = Ok t ->
  isFullyResolved t = true.
Proof.
  unfold transformConfig. intros Hc H.
  destruct (String.eqb s "/" && String.eqb d "/"); [injection H as <-; exact Hc|].
  destruct (if String.eqb s "/" then Some config else nodeAtPath ([], config) s)
    as [sc|] eqn:Esc; [|discriminate].
  assert (Hsc : isFullyResolved sc = true).
  { destruct (String.eqb s "/"); [injection Esc as <-; exact Hc|].
    exact (nodeAtPath_root_fully config s sc Hc Esc). }
  destruct (String.eqb d "/"); [injection H as <-; exact Hsc|].
  destruct (destinationChain (tl (split_slash d)) sc) as [t'|] eqn:E; [|discriminate].
  injection H as <-. exact (destinationChain_fully _ sc t' Hsc E).
Qed.

Lemma read_fully fc afp adir impl fuel fp wd s d t :
  read fc afp adir impl fuel fp wd s d = Ok t -> isFullyResolved t = true.
Proof.
  destruct fuel; simpl; intros H;
  (destruct (negb (isAbsoluteNodePath s && validateNodePath s)); [discriminate|];
   destruct (negb (isAbsoluteNodePath d && validateNodePath d)); [discriminate|];
   destruct (fc (afp wd fp)) as [[[| | | | |root]|]|]; try discriminate;
   destruct (readIncludesMember _ root _) as [cc|]; [|discriminate];
   destruct (readConfigMember root) as [cm|]; [|discriminate];
   destruct (applyObject cc cm) as [cc'|]; [|discriminate];
   destruct (resolveLoop _ cc') as [res|] eqn:L; [|discriminate];
   exact (transformConfig_fully res s d t (resolveLoop_fully _ _ _ L) H)).
Qed.

(* ------------------------------------------------------------------------- *)
(** ** The resolution loop of [read] *)

Lemma passOutcome_S i n :
  passOutcome (S i) n = passOutcome i (snd (resolveReferences [] n)).
Proof. reflexivity. Qed.

Lemma resolveLoop_all_unresolved k : forall n,
  (forall i, i < k -> passOutcome i n = Unresolved) ->
  resolveLoop k n = Err FailedToFullyResolve.
Proof.
  induction k as [|k IH]; intros n H; simpl; [reflexivity|].
  pose proof (H 0 ltac:(lia)) as H0. unfold passOutcome in H0; simpl in H0.
  destruct (resolveReferences [] n) as [r n'] eqn:E; simpl in H0; subst r.
  apply IH. intros i Hi. specialize (H (S i) ltac:(lia)).
  rewrite passOutcome_S, E in H. exact H.
Qed.

Lemma resolveLoop_first_settled k : forall n j r,
  j < k -> (forall i, i < j -> passOutcome i n = Unresolved) ->
  passOutcome j n = r -> r <> Unresolved ->
  resolveLoop k n = match r with
                    | Resolved => Ok (afterPasses (S j) n)
                    | _ => Err ResolveReferencesFailed
                    end.
Proof.
  induction k as [|k IH]; intros n j r Hj Hbefore Hr Hne; [lia|]. simpl.
  destruct j as [|j].
  - unfold passOutcome in Hr; simpl in Hr.
    destruct (resolveReferences [] n) as [r0 n'] eqn:E; simpl in Hr; subst r0.
    destruct r; [reflexivity|congruence|reflexivity].
  - pose proof (Hbefore 0 ltac:(lia)) as H0. unfold passOutcome in H0; simpl in H0.
    destruct (resolveReferences [] n) as [r0 n'] eqn:E; simpl in H0; subst r0.
    simpl afterPasses. simpl.
    apply (IH n' j r ltac:(lia)); [|rewrite passOutcome_S, E in Hr; exact Hr|exact Hne].
    intros i Hi. specialize (Hbefore (S i) ltac:(lia)).
    rewrite passOutcome_S, E in Hbefore. exact Hbefore.
Qed.

Lemma resolveLoop_stuck k t :
  resolveReferences [] t = (Unresolved, t) -> resolveLoop k t = Err FailedToFullyResolve.
Proof. intros H. induction k as [|k IH]; simpl; [reflexivity|]. rewrite H. exact IH. Qed.

Lemma resolveLoop_unresolved_step k t t' :
  resolveReferences [] t = (Unresolved, t') -> resolveLoop (S k) t = resolveLoop k t'.
Proof. intros H. simpl. rewrite H. reflexivity. Qed.

Lemma readSample_self impl :
  readSample impl "self.json" =
  match resolveLoop (N.to_nat (m_referenceResolutionMaxCycles impl))
          (NObject [("x", NNodeReference "/x")]) with
  | Err e => Err e
  | Ok r => transformConfig r "/" "/"
  end.
Proof. reflexivity. Qed.

Lemma readSample_mutual impl :
  readSample impl "mutual.json" =
  match resolveLoop (N.to_nat (m_referenceResolutionMaxCycles impl))
          (NObject [("x", NNodeReference "/y"); ("y", NNodeReference "/x")]) with
  | Err e => Err e
  | Ok r => transformConfig r "/" "/"
  end.
Proof. reflexivity. Qed.

(* ------------------------------------------------------------------------- *)
(** ** Resolution keeps the members in place *)

Lemma resolveMembers_keys rs c r : forall l acc res ms',
  resolveMembers rs c l r acc = (res, ms') -> map fst ms' = map fst (rev l ++ r).
Proof.
  induction r as [|[k v] r IH]; simpl; intros l acc res ms' H.
  - injection H as _ <-. rewrite app_nil_r. reflexivity.
  - destruct (rs (FObject k l r :: c) v) as [[] v'].
    + rewrite (IH _ _ _ _ H). simpl. rewrite <- app_assoc, !map_app. reflexivity.
    + rewrite (IH _ _ _ _ H). simpl. rewrite <- app_assoc, !map_app. reflexivity.
    + injection H as _ <-. rewrite rev_append_rev, !map_app. reflexivity.
Qed.

Lemma resolveReferences_object_keys c ms r n' :
  resolveReferences c (NObject ms) = (r, n') ->
  exists ms', n' = NObject ms' /\ map fst ms' = map fst ms.
Proof.
  rewrite resolveReferences_NObject.
  destruct (resolveMembers resolveReferences c [] ms Resolved) as [res ms'] eqn:E.
  intros H. injection H as _ <-. exists ms'. split; [reflexivity|].
  exact (resolveMembers_keys _ _ _ _ _ _ _ E).
Qed.

(* ------------------------------------------------------------------------- *)
(** ** The merge: leaves of the source win *)

Lemma member_setMember_same ms k v : member (setMember ms k v) k = Some v.
Proof.
  induction ms as [|[k' v'] ms IH]; simpl.
  - rewrite String.eqb_refl. reflexivity.
  - destruct (String.eqb_spec k k') as [->|Hne]; simpl.
    + rewrite String.eqb_refl. reflexivity.
    + destruct (String.eqb_spec k k'); [contradiction|exact IH].
Qed.

Lemma member_setMember_other ms k k' v :
  k <> k' -> member (setMember ms k' v) k = member ms k.
Proof.
  intros Hne. induction ms as [|[k1 v1] ms IH]; simpl.
  - destruct (String.eqb_spec k k'); [contradiction|reflexivity].
  - destruct (String.eqb_spec k' k1) as [->|Hne1]; simpl.
    + destruct (String.eqb_spec k k1); [contradiction|reflexivity].
    + destruct (String.eqb k k1); [reflexivity|exact IH].
Qed.

Lemma applyMemberList_absent am sm : forall dm k,
  existsb (String.eqb k) (map fst sm) = false ->
  member (applyMemberList am sm dm) k = member dm k.
Proof.
  induction sm as [|[k' v'] sm IH]; simpl; intros dm k Hk; [reflexivity|].
  apply orb_false_iff in Hk as [Hk1 Hk2].
  rewrite IH by exact Hk2.
  assert (Hne : k <> k') by (intros ->; rewrite String.eqb_refl in Hk1; discriminate).
  destruct (member dm k') as [[| | |dm'| | |]|]; destruct v';
    apply member_setMember_other; exact Hne.
Qed.

Lemma member_keys ms k v : member ms k = Some v -> existsb (String.eqb k) (map fst ms) = true.
Proof.
  induction ms as [|[k' v'] ms IH]; simpl; intros H; [discriminate|].
  destruct (String.eqb k k'); [reflexivity|]. simpl. exact (IH H).
Qed.

Lemma member_wf ms k v :
  forallb (fun m => wfNode (snd m)) ms = true -> member ms k = Some v -> wfNode v = true.
Proof.
  induction ms as [|[k' v'] ms IH]; simpl; intros Hms Hm; [discriminate|].
  apply andb_prop in Hms as [H1 H2].
  destruct (String.eqb k k'); [injection Hm as <-; exact H1 | auto].
Qed.

Lemma applyMembers_leaf p : forall sm dm k v leaf,
  wfNode (NObject sm) = true -> member sm k = Some v ->
  lookupPath v p = Some leaf -> isObject leaf = false ->
  lookupPath (NObject (applyMemberList applyMembers sm dm)) (k :: p) = Some leaf.
Proof.
  induction p as [|q p IHp]; intros sm dm k v leaf Hwf Hm Hl Hleaf.
  - (* the member itself is a leaf *)
    simpl in Hl. injection Hl as Hl; subst leaf.
    revert dm Hwf Hm. induction sm as [|[k' v'] sm IH]; simpl; intros dm Hwf Hm; [discriminate|].
    apply andb_prop in Hwf as [Hu Hf]. apply andb_prop in Hu as [Hu1 Hu2].
    apply andb_prop in Hf as [_ Hf].
    destruct (String.eqb_spec k k') as [->|Hne].
    + injection Hm as Hm; subst v'. simpl.
      rewrite applyMemberList_absent by (apply negb_true_iff; exact Hu1).
      destruct (member dm k') as [[| | |dm'| | |]|]; destruct v; try discriminate;
        rewrite member_setMember_same; reflexivity.
    + apply IH; [simpl; rewrite Hu2, Hf; reflexivity | exact Hm].
  - revert dm Hwf Hm. induction sm as [|[k' v'] sm IH]; simpl; intros dm Hwf Hm; [discriminate|].
    pose proof Hwf as Hwf0.
    apply andb_prop in Hwf as [Hu Hf]. apply andb_prop in Hu as [Hu1 Hu2].
    apply andb_prop in Hf as [Hv' Hf].
    destruct (String.eqb_spec k k') as [->|Hne].
    + injection Hm as Hm; subst v'. simpl.
      rewrite applyMemberList_absent by (apply negb_true_iff; exact Hu1).
      destruct v as [| | |svm| | |]; try discriminate.
      destruct (member dm k') as [[| | |dm'| | |]|];
        rewrite member_setMember_same; try exact Hl.
      simpl in Hl. destruct (member svm q) as [w|] eqn:Hw; [|discriminate].
      rewrite applyMembers_NObject.
      exact (IHp svm dm' q w leaf Hv' Hw Hl Hleaf).
    + apply IH; [simpl; rewrite Hu2, Hf; reflexivity | exact Hm].
Qed.

Lemma applyObject_leaf dm sm p leaf :
  wfNode (NObject sm) = true -> lookupPath (NObject sm) p = Some leaf -> isObject leaf = false ->
  exists d, applyObject (NObject dm) (NObject sm) = Some d /\ lookupPath d p = Some leaf.
Proof.
  intros Hwf Hl Hleaf. exists (NObject (applyMembers dm (NObject sm))). split; [reflexivity|].
  destruct p as [|k p]; [simpl in Hl; injection Hl as <-; discriminate|].
  simpl in Hl. destruct (member sm k) as [v|] eqn:Hm; [|discriminate].
  rewrite applyMembers_NObject.
  exact (applyMembers_leaf p sm dm k v leaf Hwf Hm Hl Hleaf).
Qed.

(* ------------------------------------------------------------------------- *)
(** ** The member loop of the JSON reader *)

Lemma containsMember_setMember_mono acc k k' v :
  containsMember acc k = true -> containsMember (setMember acc k' v) k = true.
Proof.
  unfold containsMember. intros H.
  destruct (String.eqb_spec k k') as [->|Hne].
  - rewrite member_setMember_same. reflexivity.
  - rewrite member_setMember_other by exact Hne. exact H.
Qed.

Lemma containsMember_setMember_same acc k v :
  containsMember (setMember acc k v) k = true.
Proof. unfold containsMember. rewrite member_setMember_same. reflexivity. Qed.

Lemma readMembers_contained rj p ms : forall acc k v,
  In (k, v) ms -> containsMember acc (snd (stripDecorator k)) = true ->
  readMembers rj p ms acc = None.
Proof.
  induction ms as [|[k' v'] ms IH]; simpl; intros acc k v Hin Hc; [contradiction|].
  destruct Hin as [Heq|Hin].
  - injection Heq as -> ->.
    destruct (stripDecorator k) as [d nm]. simpl in Hc.
    destruct (negb (validateNodeName nm)); [reflexivity|]. rewrite Hc. reflexivity.
  - destruct (stripDecorator k') as [d nm].
    destruct (negb (validateNodeName nm)); [reflexivity|].
    destruct (containsMember acc nm); [reflexivity|].
    destruct (rj d v' (appendNodeToPath p nm)) as [m|]; [|reflexivity].
    apply (IH _ k v Hin). apply containsMember_setMember_mono. exact Hc.
Qed.

Lemma readMembers_prefix rj p pre : forall rest acc,
  readMembers rj p (pre ++ rest) acc = None \/
  exists acc', readMembers rj p (pre ++ rest) acc = readMembers rj p rest acc'.
Proof.
  induction pre as [|[k v] pre IH]; simpl; intros rest acc; [right; exists acc; reflexivity|].
  destruct (stripDecorator k) as [d nm].
  destruct (negb (validateNodeName nm)); [left; reflexivity|].
  destruct (containsMember acc nm); [left; reflexivity|].
  destruct (rj d v (appendNodeToPath p nm)) as [m|]; [|left; reflexivity].
  apply IH.
Qed.

Lemma readMembers_duplicate rj p pre k1 v1 mid k2 v2 post acc :
  snd (stripDecorator k1) = snd (stripDecorator k2) ->
  readMembers rj p (pre ++ (k1, v1) :: mid ++ (k2, v2) :: post) acc = None.
Proof.
  intros Hname.
  destruct (readMembers_prefix rj p pre ((k1, v1) :: mid ++ (k2, v2) :: post) acc)
    as [H|[acc' ->]]; [exact H|].
  simpl. destruct (stripDecorator k1) as [d nm] eqn:E1. simpl in Hname.
  destruct (negb (validateNodeName nm)); [reflexivity|].
  destruct (containsMember acc' nm); [reflexivity|].
  destruct (rj d v1 (appendNodeToPath p nm)) as [m|]; [|reflexivity].
  apply (readMembers_contained rj p _ _ k2 v2).
  - apply in_or_app. right. left. reflexivity.
  - rewrite <- Hname. apply containsMember_setMember_same.
Qed.

Lemma readMembers_reference rj p name v ms acc :
  validateNodeName name = true -> containsMember acc name = false ->
  readMembers rj p ((String "&"%char name, v) :: ms) acc =
  match rj ReferenceDecorator v (appendNodeToPath p name) with
  | Some m => readMembers rj p ms (setMember acc name m)
  | None => None
  end.
Proof. intros Hv Hc. simpl. rewrite Hv, Hc. reflexivity. Qed.

Lemma readMembers_invalid rj p name v ms acc :
  validateNodeName name = false ->
  readMembers rj p ((String "&"%char name, v) :: ms) acc = None.
Proof. intros Hv. simpl. rewrite Hv. reflexivity. Qed.

Lemma readJson_reference_kind j p n :
  readJson ReferenceDecorator j p = Some n ->
  match j with
  | JStr s => n = NNodeReference s
  | JArr _ => exists es, n = NDerivedArray es
  | JObj _ => exists bs c, n = NDerivedObject bs c
  | _ => False
  end.
Proof.
  destruct j as [|b|z|s|xs|o]; simpl; intros H; try discriminate.
  - unfold readReferenceNode in H. destruct (validateNodeReference s p); [|discriminate].
    injection H as <-. reflexivity.
  - revert H. generalize (@nil node) as acc.
    induction xs as [|x xs IH]; intros acc H; [injection H as <-; eexists; reflexivity|].
    destruct x as [| | | | |[|[key ev] [|]]]; try discriminate.
    destruct (stripDecorator key) as [d en].
    destruct (String.eqb en "element"); [|discriminate].
    destruct (readJson d ev p) as [e|]; [|discriminate].
    exact (IH _ H).
  - destruct (jvalue o "base") as [bv|]; [|discriminate].
    destruct (readBases bv) as [bs|]; [|discriminate].
    match type of H with (match ?c with _ => _ end) = _ => destruct c as [cfg|] end;
      [|discriminate].
    injection H as <-. eexists _, _. reflexivity.
Qed.

(* ------------------------------------------------------------------------- *)
(** ** The 'type' of an include *)

Lemma includeNodePath_err o k e0 e : includeNodePath o k e0 = Err e -> e = e0.
Proof.
  unfold includeNodePath. destruct (jvalue o k) as [[]|]; intros H; try discriminate;
    injection H as <-; reflexivity.
Qed.

Lemma readIncludeEntry_after_type rf wd cc o :
  includeType o = Ok "CppConfigFramework" ->
  readIncludeEntry rf wd cc (JObj o) <> Err IncludeTypeNotString /\
  readIncludeEntry rf wd cc (JObj o) <> Err IncludeTypeUnsupported.
Proof.
  intros H. unfold readIncludeEntry. rewrite H. simpl.
  destruct (jvalue o "file_path") as [[| | |fp| |]|]; try (split; discriminate).
  destruct (includeNodePath o "source_node" _) as [s|e] eqn:Es;
    [|apply includeNodePath_err in Es; subst e; split; discriminate].
  destruct (includeNodePath o "destination_node" _) as [d|e] eqn:Ed;
    [|apply includeNodePath_err in Ed; subst e; split; discriminate].
  destruct (rf fp wd s d); [|split; discriminate].
  destruct (applyObject cc _); split; discriminate.
Qed.

Lemma readIncludeEntry_type_errors rf wd cc o :
  (readIncludeEntry rf wd cc (JObj o) = Err IncludeTypeNotString \/
   readIncludeEntry rf wd cc (JObj o) = Err IncludeTypeUnsupported) <->
  ((exists j, jvalue o "type" = Some j /\ j <> JNull /\ forall s, j <> JStr s) \/
   (exists s, jvalue o "type" = Some (JStr s) /\ s <> "CppConfigFramework")).
Proof.
  assert (Hdef : includeType o = Ok "CppConfigFramework" ->
                 ~ (readIncludeEntry rf wd cc (JObj o) = Err IncludeTypeNotString \/
                    readIncludeEntry rf wd cc (JObj o) = Err IncludeTypeUnsupported))
    by (intros Ht [H|H]; [apply (proj1 (readIncludeEntry_after_type rf wd cc o Ht))
                         |apply (proj2 (readIncludeEntry_after_type rf wd cc o Ht))]; exact H).
  destruct (jvalue o "type") as [[|b|z|s|xs|ob]|] eqn:E.
  - split; [intros H; exfalso; apply Hdef; [unfold includeType; rewrite E; reflexivity|exact H]|].
    intros [[j [Hj [Hn _]]]|[s [Hs _]]]; [injection Hj as <-; contradiction|discriminate].
  - split; [intros _; left; exists (JBool b); repeat split; discriminate|].
    intros _. left. unfold readIncludeEntry, includeType. rewrite E. reflexivity.
  - split; [intros _; left; exists (JNum z); repeat split; discriminate|].
    intros _. left. unfold readIncludeEntry, includeType. rewrite E. reflexivity.
  - destruct (String.eqb_spec s "CppConfigFramework") as [->|Hne].
    + split; [intros H; exfalso; apply Hdef; [unfold includeType; rewrite E; reflexivity|exact H]|].
      intros [[j [Hj [_ Hs]]]|[s' [Hs Hne]]].
      * injection Hj as <-. exact (False_ind _ (Hs _ eq_refl)).
      * injection Hs as <-. contradiction.
    + split; [intros _; right; exists s; split; [reflexivity|exact Hne]|].
      intros _. right. unfold readIncludeEntry, includeType. rewrite E.
      destruct (String.eqb_spec s "CppConfigFramework"); [contradiction|reflexivity].
  - split; [intros _; left; exists (JArr xs); repeat split; discriminate|].
    intros _. left. unfold readIncludeEntry, includeType. rewrite E. reflexivity.
  - split; [intros _; left; exists (JObj ob); repeat split; discriminate|].
    intros _. left. unfold readIncludeEntry, includeType. rewrite E. reflexivity.
  - split; [intros H; exfalso; apply Hdef; [unfold includeType; rewrite E; reflexivity|exact H]|].
    intros [[j [Hj _]]|[s [Hs _]]]; discriminate.
Qed.

Lemma readIncludeEntry_null_type rf wd cc o :
  jvalue o "type" = Some JNull ->
  readIncludeEntry rf wd cc (JObj o) =
  readIncludeEntry rf wd cc (JObj (("type", JStr "CppConfigFramework") :: o)).
Proof.
  intros E. unfold readIncludeEntry, includeType, includeNodePath. rewrite E. simpl.
  reflexivity.
Qed.

(* ------------------------------------------------------------------------- *)
(** ** Resolution keeps resolved leaves; the Objects the reader builds *)

Lemma member_app l1 l2 k :
  member (l1 ++ l2)%list k = match member l1 k with Some v => Some v | None => member l2 k end.
Proof.
  induction l1 as [|[k' v'] l1 IH]; simpl; [reflexivity|].
  destruct (String.eqb k k'); [reflexivity|exact IH].
Qed.

Lemma setMember_absent acc k v : member acc k = None -> setMember acc k v = (acc ++ [(k, v)])%list.
Proof.
  induction acc as [|[k' v'] acc IH]; simpl; intros H; [reflexivity|].
  destruct (String.eqb k k'); [discriminate|]. rewrite IH by exact H. reflexivity.
Qed.

Lemma resolveList_stable rs mk c r : forall l acc,
  (forall e c', In e r -> rs c' e = (Resolved, e)) ->
  resolveList rs mk c l r acc = (acc, (rev l ++ r)%list).
Proof.
  induction r as [|e r IH]; simpl; intros l acc H.
  - rewrite app_nil_r. reflexivity.
  - rewrite (H e _ (or_introl eq_refl)).
    rewrite IH by (intros e' c' Hin; apply H; right; exact Hin).
    simpl. rewrite <- app_assoc. reflexivity.
Qed.

Lemma resolveMembers_stable rs c r : forall l acc,
  (forall k v c', In (k, v) r -> rs c' v = (Resolved, v)) ->
  resolveMembers rs c l r acc = (acc, (rev l ++ r)%list).
Proof.
  induction r as [|[k v] r IH]; simpl; intros l acc H.
  - rewrite app_nil_r. reflexivity.
  - rewrite (H k v _ (or_introl eq_refl)).
    rewrite IH by (intros k' v' c' Hin; apply (H k' v'); right; exact Hin).
    simpl. rewrite <- app_assoc. reflexivity.
Qed.

Lemma resolveReferences_stable n : isFullyResolved n = true ->
  forall c, resolveReferences c n = (Resolved, n).
Proof.
  induction n as [|v|es IH|ms IH|r|es IH|bs cfg IH] using node_ind'; intros Hn c;
    try reflexivity; try discriminate.
  - rewrite resolveReferences_NArray, resolveList_stable; [reflexivity|].
    simpl in Hn. rewrite forallb_forall in Hn. rewrite List.Forall_forall in IH.
    intros e c' Hin. exact (IH e Hin (Hn e Hin) c').
  - rewrite resolveReferences_NObject, resolveMembers_stable; [reflexivity|].
    simpl in Hn. rewrite forallb_forall in Hn. rewrite List.Forall_forall in IH.
    intros k v c' Hin. exact (IH (k, v) Hin (Hn (k, v) Hin) c').
Qed.

Lemma resolveMembers_related rs c r : forall pre l acc res ms',
  List.Forall2 (resolvedFrom rs) (rev pre) (rev l) ->
  resolveMembers rs c l r acc = (res, ms') ->
  List.Forall2 (resolvedFrom rs) (rev pre ++ r)%list ms'.
Proof.
  induction r as [|[k v] r IH]; simpl; intros pre l acc res ms' Hpre H.
  - injection H as _ <-. rewrite app_nil_r. exact Hpre.
  - assert (Hstep : forall v', (v' = v \/ exists c', v' = snd (rs c' v)) ->
              List.Forall2 (resolvedFrom rs) (rev ((k, v) :: pre)) (rev ((k, v') :: l))).
    { intros v' Hv'. simpl. apply List.Forall2_app; [exact Hpre|].
      constructor; [split; [reflexivity|exact Hv']|constructor]. }
    destruct (rs (FObject k l r :: c) v) as [rr v'] eqn:Er.
    assert (Hv' : v' = v \/ exists c', v' = snd (rs c' v))
      by (right; exists (FObject k l r :: c); rewrite Er; reflexivity).
    destruct rr.
    + specialize (IH _ _ _ _ _ (Hstep v' Hv') H). simpl in IH.
      rewrite <- app_assoc in IH. exact IH.
    + specialize (IH _ _ _ _ _ (Hstep v' Hv') H). simpl in IH.
      rewrite <- app_assoc in IH. exact IH.
    + injection H as _ <-. rewrite rev_append_rev.
      apply List.Forall2_app; [exact Hpre|].
      constructor; [split; [reflexivity|exact Hv']|].
      clear. induction r as [|m r IH]; constructor; [split; [reflexivity|left; reflexivity]|exact IH].
Qed.

Lemma member_related rs ms ms' k v :
  List.Forall2 (resolvedFrom rs) ms ms' -> member ms k = Some v ->
  exists v', member ms' k = Some v' /\ (v' = v \/ exists c', v' = snd (rs c' v)).
Proof.
  intros HF. induction HF as [|[k1 v1] [k2 v2] ms ms' [Hk Hv] HF IH]; simpl; [discriminate|].
  simpl in Hk, Hv. subst k2.
  destruct (String.eqb k k1); [intros E; injection E as <-; exists v2; auto|exact IH].
Qed.

Lemma resolveReferences_keeps_leaf p : forall n c res n' leaf,
  resolveReferences c n = (res, n') -> lookupPath n p = Some leaf ->
  isFullyResolved leaf = true -> lookupPath n' p = Some leaf.
Proof.
  induction p as [|k p IH]; intros n c res n' leaf H Hl Hf.
  - simpl in Hl. injection Hl as ->.
    rewrite (resolveReferences_stable leaf Hf c) in H. injection H as _ <-. reflexivity.
  - destruct n as [| | |ms| | |]; try discriminate.
    simpl in Hl. destruct (member ms k) as [v|] eqn:Em; [|discriminate].
    rewrite resolveReferences_NObject in H.
    destruct (resolveMembers resolveReferences c [] ms Resolved) as [r ms'] eqn:Er.
    injection H as _ <-.
    pose proof (resolveMembers_related resolveReferences c ms [] [] Resolved r ms'
                  (List.Forall2_nil _) Er) as HF.
    destruct (member_related _ _ _ k v HF Em) as [v' [Hm' [->|[c' ->]]]];
      simpl; rewrite Hm'; [exact Hl|].
    destruct (resolveReferences c' v) as [r' v''] eqn:E'.
    exact (IH v c' r' v'' leaf E' Hl Hf).
Qed.

Lemma resolveLoop_keeps_leaf k : forall n t p leaf,
  resolveLoop k n = Ok t -> lookupPath n p = Some leaf ->
  isFullyResolved leaf = true -> lookupPath t p = Some leaf.
Proof.
  induction k as [|k IH]; simpl; intros n t p leaf H Hl Hf; [discriminate|].
  destruct (resolveReferences [] n) as [[] n'] eqn:E; try discriminate.
  - injection H as <-. exact (resolveReferences_keeps_leaf p n [] _ _ leaf E Hl Hf).
  - exact (IH n' t p leaf H (resolveReferences_keeps_leaf p n [] _ _ leaf E Hl Hf) Hf).
Qed.

Lemma member_none_existsb acc k :
  member acc k = None -> existsb (String.eqb k) (map fst acc) = false.
Proof.
  induction acc as [|[k' v'] acc IH]; simpl; intros H; [reflexivity|].
  destruct (String.eqb k k'); [discriminate|exact (IH H)].
Qed.

Lemma uniqueKeys_snoc ks k :
  uniqueKeys ks = true -> existsb (String.eqb k) ks = false -> uniqueKeys (ks ++ [k])%list = true.
Proof.
  induction ks as [|k' ks IH]; simpl; intros Hu He; [reflexivity|].
  apply andb_prop in Hu as [Hu1 Hu2]. apply orb_false_iff in He as [He1 He2].
  rewrite IH by assumption. rewrite andb_true_r.
  rewrite existsb_app. simpl. rewrite String.eqb_sym, He1. simpl.
  rewrite orb_false_r. exact Hu1.
Qed.

Lemma readMembers_wf p ms : forall acc n,
  Forall (fun m => forall d q n, readJson d (snd m) q = Some n -> wfNode n = true) ms ->
  uniqueKeys (map fst acc) && forallb (fun m => wfNode (snd m)) acc = true ->
  readMembers readJson p ms acc = Some n -> wfNode n = true.
Proof.
  induction ms as [|[key v] ms IH]; simpl; intros acc n Hms Hacc H.
  - injection H as <-. exact Hacc.
  - inversion Hms as [|? ? Hv Hrest]; subst.
    destruct (stripDecorator key) as [d nm].
    destruct (negb (validateNodeName nm)); [discriminate|].
    destruct (containsMember acc nm) eqn:Ec; [discriminate|].
    destruct (readJson d v (appendNodeToPath p nm)) as [m|] eqn:Er; [|discriminate].
    apply (IH (setMember acc nm m) n Hrest); [|exact H].
    assert (Hn : member acc nm = None)
      by (unfold containsMember in Ec; destruct (member acc nm); [discriminate|reflexivity]).
    rewrite setMember_absent by exact Hn.
    apply andb_prop in Hacc as [Hu Hf].
    rewrite map_app, forallb_app. simpl.
    rewrite (uniqueKeys_snoc _ _ Hu (member_none_existsb _ _ Hn)), Hf.
    rewrite (Hv _ _ _ Er). reflexivity.
Qed.

Lemma readJson_wf j : forall d p n, readJson d j p = Some n -> wfNode n = true.
Proof.
  induction j as [| b | z | s | xs IH | ms IH] using json_ind'; intros d p n H;
    destruct d;
    try (apply readJson_reference_kind in H; simpl in H;
         first [contradiction
               |subst n; reflexivity
               |destruct H as [es ->]; reflexivity
               |destruct H as [bs [c ->]]; reflexivity]);
    try (simpl in H; injection H as <-; reflexivity).
  - simpl in H. revert H. generalize 0 as i. generalize (@nil node) as acc.
    clear IH. induction xs as [|x xs IHx]; intros acc i H; [injection H as <-; reflexivity|].
    destruct (readJson NoDecorator x _); [exact (IHx _ _ H)|discriminate].
  - rewrite readJsonObject_members in H.
    exact (readMembers_wf p ms [] n IH eq_refl H).
Qed.

Lemma readConfigMember_wf root cfg :
  readConfigMember root = Ok cfg -> wfNode cfg = true.
Proof.
  unfold readConfigMember.
  destruct (jvalue root "config") as [[| | | | |o]|]; intros H; try discriminate.
  - injection H as <-. reflexivity.
  - destruct (readJsonObject o "/") as [c|] eqn:E; [|discriminate].
    injection H as <-. exact (readJson_wf _ _ _ _ E).
Qed.

Lemma applyObject_object dm x y :
  applyObject (NObject dm) x = Some y -> exists dm', y = NObject dm'.
Proof.
  destruct x as [| | |sm| | |]; simpl; intros H; try discriminate;
    injection H as <-; eexists; reflexivity.
Qed.

Lemma readIncludeEntry_applied rf wd cc it c :
  readIncludeEntry rf wd cc it = Ok c -> exists cfg, applyObject cc cfg = Some c.
Proof.
  unfold readIncludeEntry.
  destruct it as [| | | | |o]; try discriminate.
  destruct (includeType o) as [type|]; [|discriminate].
  destruct (negb (String.eqb type "CppConfigFramework")); [discriminate|].
  destruct (jvalue o "file_path") as [[| | |fp| |]|]; try discriminate.
  destruct (includeNodePath o "source_node" _) as [s|]; [|discriminate].
  destruct (includeNodePath o "destination_node" _) as [d|]; [|discriminate].
  destruct (rf fp wd s d) as [config|]; [|discriminate].
  destruct (applyObject cc config) as [c'|] eqn:E; [|discriminate].
  intros H; injection H as <-. exists config. exact E.
Qed.

Lemma readIncludeEntries_object rf wd items : forall dm c,
  readIncludeEntries rf wd (NObject dm) items = Ok c -> exists dm', c = NObject dm'.
Proof.
  induction items as [|it items IH]; simpl; intros dm c H.
  - injection H as <-. eexists; reflexivity.
  - destruct (readIncludeEntry rf wd (NObject dm) it) as [c1|] eqn:E; [|discriminate].
    destruct (readIncludeEntry_applied _ _ _ _ _ E) as [cfg Ha].
    destruct (applyObject_object _ _ _ Ha) as [dm1 ->].
    exact (IH dm1 c H).
Qed.

Lemma readIncludesMember_object rf root wd c :
  readIncludesMember rf root wd = Ok c -> exists dm, c = NObject dm.
Proof.
  unfold readIncludesMember.
  destruct (jvalue root "includes") as [[| | | |items|]|]; intros H; try discriminate;
    try (injection H as <-; eexists; reflexivity).
  exact (readIncludeEntries_object rf wd items [] c H).
Qed.

Lemma read_config_leaf fc afp adir impl fuel fp wd root cfg p leaf t :
  fc (afp wd fp) = Some (Some (JObj root)) -> readConfigMember root = Ok cfg ->
  p <> [] -> lookupPath cfg p = Some leaf -> isObject leaf = false ->
  isFullyResolved leaf = true ->
  read fc afp adir impl fuel fp wd "/" "/" = Ok t -> lookupPath t p = Some leaf.
Proof.
  intros Hf Hc Hp Hl Ho Hfr.
  assert (Hcfg : exists sm, cfg = NObject sm).
  { unfold readConfigMember in Hc.
    destruct (jvalue root "config") as [[| | | | |o]|]; try discriminate.
    - injection Hc as <-. destruct p; [contradiction|discriminate].
    - destruct (readJsonObject o "/") as [c|] eqn:E; [|discriminate].
      injection Hc as <-. unfold readJsonObject in E. rewrite readJsonObject_members in E.
      clear -E. revert E. generalize (@nil (string * node)) as acc.
      induction o as [|[key v] o IH]; simpl; intros acc E; [injection E as <-; eexists; reflexivity|].
      destruct (stripDecorator key) as [d nm].
      destruct (negb (validateNodeName nm)); [discriminate|].
      destruct (containsMember acc nm); [discriminate|].
      destruct (readJson d v (appendNodeToPath "/" nm)); [exact (IH _ E)|discriminate]. }
  destruct Hcfg as [sm ->].
  pose proof (readConfigMember_wf root _ Hc) as Hwf.
  destruct fuel; simpl;
  (rewrite Hf;
   match goal with |- match readIncludesMember ?rf _ _ with _ => _ end = _ -> _ =>
     destruct (readIncludesMember rf root (adir (afp wd fp))) as [cc|] eqn:Ei; [|discriminate];
     destruct (readIncludesMember_object _ _ _ _ Ei) as [dm ->] end;
   rewrite Hc;
   destruct (applyObject_leaf dm sm p leaf Hwf Hl Ho) as [d [Ha Hd]];
   rewrite Ha;
   destruct (resolveLoop _ d) as [r|] eqn:El; [|discriminate];
   unfold transformConfig; simpl; intros H; injection H as <-;
   exact (resolveLoop_keeps_leaf _ d r p leaf El Hd Hfr)).
Qed.

Lemma read_null_config fc afp adir impl fuel fp wd s d root :
  isAbsoluteNodePath s && validateNodePath s = true ->
  isAbsoluteNodePath d && validateNodePath d = true ->
  fc (afp wd fp) = Some (Some (JObj root)) -> jvalue root "config" = Some JNull ->
  read fc afp adir impl fuel fp wd s d =
  match readIncludesMember
          (fun fp' wd' s' d' => match fuel with
                                | O => Err IncludeDepthExceeded
                                | S f => read fc afp adir impl f fp' wd' s' d'
                                end) root (adir (afp wd fp)) with
  | Err _ => Err IncludesMemberFailed
  | Ok aggregate =>
      match resolveLoop (N.to_nat (m_referenceResolutionMaxCycles impl)) aggregate with
      | Err e => Err e
      | Ok resolved => transformConfig resolved s d
      end
  end.
Proof.
  intros Hs Hd Hf Hc.
  destruct fuel; simpl; rewrite Hs, Hd; simpl; rewrite Hf;
  (match goal with |- match readIncludesMember ?rf _ _ with _ => _ end = _ =>
     destruct (readIncludesMember rf root (adir (afp wd fp))) as [cc|] eqn:Ei; [|reflexivity];
     destruct (readIncludesMember_object _ _ _ _ Ei) as [dm ->] end;
   unfold readConfigMember; rewrite Hc; reflexivity).
Qed.

(* ========================================================================= *)
(** * The claims *)

(** C1: [read] runs the resolution pass at most [max_cycles] times
    ([resolveLoop] is called with [m_referenceResolutionMaxCycles]); it
    succeeds at the first pass reporting [Resolved], fails at the first
    [Error], and fails with "failed to fully resolve" when every one of the
    [max_cycles] passes is [Unresolved]. The bound defaults to 100 and cannot
    be set to 0. A self-referential reference and two mutual references end in
    "failed to fully resolve" whatever the bound. *)
Theorem read_cycle_bound :
  (forall k n, (forall i, i < k -> passOutcome i n = Unresolved) ->
     resolveLoop k n = Err FailedToFullyResolve) /\
  (forall k n j, j < k -> (forall i, i < j -> passOutcome i n = Unresolved) ->
     passOutcome j n = Resolved -> resolveLoop k n = Ok (afterPasses (S j) n)) /\
  (forall k n j, j < k -> (forall i, i < j -> passOutcome i n = Unresolved) ->
     passOutcome j n = Error -> resolveLoop k n = Err ResolveReferencesFailed) /\
  m_referenceResolutionMaxCycles defaultImpl = 100%N /\
  (forall impl, setReferenceResolutionMaxCycles impl 0 = None) /\
  (forall impl v, v <> 0%N -> setReferenceResolutionMaxCycles impl v = Some (mkImpl v)) /\
  (forall impl, readSample impl "self.json" = Err FailedToFullyResolve /\
                readSample impl "mutual.json" = Err FailedToFullyResolve).
Proof.
  split; [exact resolveLoop_all_unresolved|].
  split.
  { intros k n j Hj Hb Hr.
    exact (resolveLoop_first_settled k n j Resolved Hj Hb Hr ltac:(discriminate)). }
  split.
  { intros k n j Hj Hb Hr.
    exact (resolveLoop_first_settled k n j Error Hj Hb Hr ltac:(discriminate)). }
  split; [reflexivity|].
  split; [reflexivity|].
  split.
  { intros impl v Hv. unfold setReferenceResolutionMaxCycles.
    destruct (N.eqb_spec v 0); [contradiction|reflexivity]. }
  intros impl. split.
  - rewrite readSample_self, resolveLoop_stuck; [reflexivity|].
    vm_compute. reflexivity.
  - rewrite readSample_mutual.
    destruct (N.to_nat (m_referenceResolutionMaxCycles impl)) as [|k]; [reflexivity|].
    rewrite (resolveLoop_unresolved_step k _
               (NObject [("x", NNodeReference "/x"); ("y", NNodeReference "/x")]));
      [|vm_compute; reflexivity].
    rewrite resolveLoop_stuck; [reflexivity|].
    vm_compute. reflexivity.
Qed.

(** C2: resolving a NodeReference: without a parent the outcome is [Error];
    otherwise the reference is looked up from the parent
    ([nodeAtPath (c, plug f n)], the location of the parent); a missing target
    leaves the node as it is with outcome [Unresolved]; a found target
    replaces the node, with outcome [Resolved] exactly when the target is
    fully resolved. The replacement stays in the same position of its parent:
    resolving an Object keeps its member names in order, and a reference to an
    earlier sibling takes its value in place. *)
Theorem resolveNodeReference_spec :
  (forall ref, resolveReferences [] (NNodeReference ref) = (Error, NNodeReference ref)) /\
  (forall f c ref, nodeAtPath (c, plug f (NNodeReference ref)) ref = None ->
     resolveReferences (f :: c) (NNodeReference ref) = (Unresolved, NNodeReference ref)) /\
  (forall f c ref t, nodeAtPath (c, plug f (NNodeReference ref)) ref = Some t ->
     resolveReferences (f :: c) (NNodeReference ref) =
     (if isFullyResolved t then Resolved else Unresolved, t)) /\
  (forall c ms r n', resolveReferences c (NObject ms) = (r, n') ->
     exists ms', n' = NObject ms' /\ map fst ms' = map fst ms) /\
  resolveReferences []
    (NObject [("a", NValue (JNum 1)); ("r", NNodeReference "/a"); ("b", NValue (JNum 2))]) =
  (Resolved, NObject [("a", NValue (JNum 1)); ("r", NValue (JNum 1)); ("b", NValue (JNum 2))]).
Proof.
  split; [reflexivity|].
  split; [intros f c ref H; simpl; rewrite H; reflexivity|].
  split; [intros f c ref t H; simpl; rewrite H; reflexivity|].
  split; [exact resolveReferences_object_keys|].
  vm_compute. reflexivity.
Qed.

(** C3: resolving a DerivedObject: the bases are looked up from the parent in
    order and applied onto an accumulator that starts as an empty Object; a
    missing base or one not fully resolved stops with [Unresolved], and the
    node is then left unchanged; once every base is applied, the fully
    resolved (or now resolved) non-null override is applied last and the node
    becomes the accumulator, with outcome [Resolved]. With /a = {m:1},
    /b = {m:2, n:3} and the override {n:7} the node becomes an Object with
    exactly the members m = 2 and n = 7 (in whatever order the member
    container enumerates them). *)
Theorem resolveDerivedObject_spec :
  (forall P b bs acc, nodeAtPath P b = None ->
     applyBases P (b :: bs) acc = (Unresolved, acc)) /\
  (forall P b bs acc t, nodeAtPath P b = Some t -> isFullyResolved t = false ->
     applyBases P (b :: bs) acc = (Unresolved, acc)) /\
  (forall P b bs acc t acc', nodeAtPath P b = Some t -> isFullyResolved t = true ->
     applyObject acc t = Some acc' -> applyBases P (b :: bs) acc = applyBases P bs acc') /\
  (forall f c bases config acc,
     applyBases (c, plug f (NDerivedObject bases config)) bases (NObject []) = (Unresolved, acc) ->
     resolveReferences (f :: c) (NDerivedObject bases config) =
     (Unresolved, NDerivedObject bases config)) /\
  (forall f c bases config d d',
     applyBases (c, plug f (NDerivedObject bases config)) bases (NObject []) = (Resolved, d) ->
     isFullyResolved config = true -> isNull config = false ->
     applyObject d config = Some d' ->
     resolveReferences (f :: c) (NDerivedObject bases config) = (Resolved, d')) /\
  (forall f c bases config config' d d',
     applyBases (c, plug f (NDerivedObject bases config)) bases (NObject []) = (Resolved, d) ->
     isFullyResolved config = false ->
     resolveReferences (FBeside f (NDerivedObject bases config) :: c) config = (Resolved, config') ->
     isNull config' = false -> applyObject d config' = Some d' ->
     resolveReferences (f :: c) (NDerivedObject bases config) = (Resolved, d')) /\
  (exists t, readSample defaultImpl "derived.json" = Ok t /\
     lookupPath t ["d"; "m"] = Some (NValue (JNum 2)) /\
     lookupPath t ["d"; "n"] = Some (NValue (JNum 7)) /\
     exists dm, lookupPath t ["d"] = Some (NObject dm) /\ Permutation (map fst dm) ["m"; "n"]).
Proof.
  split; [intros P b bs acc H; simpl; rewrite H; reflexivity|].
  split; [intros P b bs acc t H Ht; simpl; rewrite H, Ht; reflexivity|].
  split; [intros P b bs acc t acc' H Ht Ha; simpl; rewrite H, Ht, Ha; reflexivity|].
  split; [intros f c bases config acc H; simpl; rewrite H; reflexivity|].
  split; [intros f c bases config d d' H Hf Hn Ha; simpl; rewrite H, Hf, Hn, Ha; reflexivity|].
  split; [intros f c bases config config' d d' H Hf Hr Hn Ha; simpl;
          rewrite H, Hf, Hr, Hn, Ha; reflexivity|].
  eexists; split; [vm_compute; reflexivity|].
  split; [reflexivity|]. split; [reflexivity|].
  eexists; split; [reflexivity|]. simpl. reflexivity.
Qed.


(** C4 (as amended): [read] applies the document's config Object onto the
    include aggregate. Reading a document from "/" to "/", every leaf of its
    config (a member path holding a non-Object value that needs no
    resolution) is found at its path in the result, whatever the includes
    hold there; a path holding Objects on both sides is merged member by
    member, not replaced. Reading top.json (including base.json with config
    {x:1, y:2}, own config {y:9, z:3}) yields the Object with exactly
    x = 1, y = 9, z = 3; reading nested_top.json (including {a:{u:1}}, own
    config {a:{v:2}}) yields a = {u:1, v:2}. Member order is not stated: it
    is that of the member container. *)
Theorem config_leaves_win :
  (forall dm sm p leaf,
     wfNode (NObject sm) = true -> lookupPath (NObject sm) p = Some leaf ->
     isObject leaf = false ->
     exists d, applyObject (NObject dm) (NObject sm) = Some d /\ lookupPath d p = Some leaf) /\
  (forall fc afp adir impl fuel fp wd root cfg p leaf t,
     fc (afp wd fp) = Some (Some (JObj root)) -> readConfigMember root = Ok cfg ->
     p <> [] -> lookupPath cfg p = Some leaf -> isObject leaf = false ->
     isFullyResolved leaf = true ->
     read fc afp adir impl fuel fp wd "/" "/" = Ok t -> lookupPath t p = Some leaf) /\
  (exists t, readSample defaultImpl "top.json" = Ok t /\
     lookupPath t ["x"] = Some (NValue (JNum 1)) /\ lookupPath t ["y"] = Some (NValue (JNum 9)) /\
     lookupPath t ["z"] = Some (NValue (JNum 3)) /\
     exists ms, t = NObject ms /\ Permutation (map fst ms) ["x"; "y"; "z"]) /\
  (exists t, readSample defaultImpl "nested_top.json" = Ok t /\
     lookupPath t ["a"; "u"] = Some (NValue (JNum 1)) /\
     lookupPath t ["a"; "v"] = Some (NValue (JNum 2)) /\
     exists ms am, t = NObject ms /\ Permutation (map fst ms) ["a"] /\
       lookupPath t ["a"] = Some (NObject am) /\ Permutation (map fst am) ["u"; "v"]).
Proof.
  split; [exact applyObject_leaf|].
  split; [exact read_config_leaf|].
  split.
  - eexists; split; [vm_compute; reflexivity|].
    split; [reflexivity|]. split; [reflexivity|]. split; [reflexivity|].
    eexists; split; [reflexivity|]. simpl. repeat constructor.
  - eexists; split; [vm_compute; reflexivity|].
    split; [reflexivity|]. split; [reflexivity|].
    eexists _, _; split; [reflexivity|]. split; [reflexivity|].
    split; [reflexivity|]. simpl. reflexivity.
Qed.

(** C4 counterexample: in nested_top.json the path /a is present both in the
    include aggregate ({u:1}) and in config ({v:2}), yet the Object read at /a
    has the member u, which config's value at /a does not have: the value is
    not the one from config. *)
Lemma config_wins_counterexample :
  readConfigMember [("config", JObj [("a", JObj [("v", JNum 2)])])] =
    Ok (NObject [("a", NObject [("v", NValue (JNum 2))])]) /\
  lookupPath (NObject [("a", NObject [("v", NValue (JNum 2))])]) ["a"; "u"] = None /\
  (exists t, readSample defaultImpl "nested_top.json" = Ok t /\
     lookupPath t ["a"; "u"] = Some (NValue (JNum 1))).
Proof.
  split; [vm_compute; reflexivity|].
  split; [reflexivity|].
  eexists. split; [vm_compute; reflexivity|reflexivity].
Qed.

(** C5 (as amended): a JSON null config member is read as a Null node, and
    [read] then goes on with the include aggregate alone (resolved and
    transformed as it is); an absent config member is an error (Qt gives
    Undefined for a missing member, which is not null), as is a config member
    that is neither null nor an Object; an Object is read by
    [readJsonObject]. nullconfig.json (including base.json, config null)
    reads as base.json's {x:1, y:2}. *)
Theorem readConfigMember_spec :
  (forall root, jvalue root "config" = Some JNull -> readConfigMember root = Ok NNull) /\
  (forall fc afp adir impl fuel fp wd s d root,
     isAbsoluteNodePath s && validateNodePath s = true ->
     isAbsoluteNodePath d && validateNodePath d = true ->
     fc (afp wd fp) = Some (Some (JObj root)) -> jvalue root "config" = Some JNull ->
     read fc afp adir impl fuel fp wd s d =
     match readIncludesMember
             (fun fp' wd' s' d' => match fuel with
                                   | O => Err IncludeDepthExceeded
                                   | S f => read fc afp adir impl f fp' wd' s' d'
                                   end) root (adir (afp wd fp)) with
     | Err _ => Err IncludesMemberFailed
     | Ok aggregate =>
         match resolveLoop (N.to_nat (m_referenceResolutionMaxCycles impl)) aggregate with
         | Err e => Err e
         | Ok resolved => transformConfig resolved s d
         end
     end) /\
  (forall root, jvalue root "config" = None -> readConfigMember root = Err ConfigNotObject) /\
  (forall root j, jvalue root "config" = Some j -> j <> JNull -> (forall o, j <> JObj o) ->
     readConfigMember root = Err ConfigNotObject) /\
  (forall root o, jvalue root "config" = Some (JObj o) ->
     readConfigMember root = match readJsonObject o "/" with
                             | Some c => Ok c
                             | None => Err ConfigReadFailed
                             end) /\
  (exists t, readSample defaultImpl "nullconfig.json" = Ok t /\
     lookupPath t ["x"] = Some (NValue (JNum 1)) /\ lookupPath t ["y"] = Some (NValue (JNum 2)) /\
     exists ms, t = NObject ms /\ Permutation (map fst ms) ["x"; "y"]) /\
  readSample defaultImpl "noconfig.json" = Err ConfigMemberFailed.
Proof.
  split; [intros root H; unfold readConfigMember; rewrite H; reflexivity|].
  split; [exact read_null_config|].
  split; [intros root H; unfold readConfigMember; rewrite H; reflexivity|].
  split.
  { intros root j H Hn Ho. unfold readConfigMember. rewrite H.
    destruct j as [| | | | |o]; [contradiction|reflexivity|reflexivity|reflexivity|reflexivity|].
    exfalso. exact (Ho o eq_refl). }
  split; [intros root o H; unfold readConfigMember; rewrite H; reflexivity|].
  split; [|vm_compute; reflexivity].
  eexists; split; [vm_compute; reflexivity|].
  split; [reflexivity|]. split; [reflexivity|]. eexists; split; [reflexivity|]. simpl. reflexivity.
Qed.

(** C5 counterexample: a document without a config member: reading the member
    fails, and so does reading the document (noconfig.json includes
    base.json and has no config). *)
Lemma readConfigMember_absent_counterexample :
  readConfigMember [("includes", JArr [JObj [("file_path", JStr "base.json")]])] =
    Err ConfigNotObject /\
  readSample defaultImpl "noconfig.json" = Err ConfigMemberFailed.
Proof. split; vm_compute; reflexivity. Qed.

(** C6: a pass that reports [Resolved] leaves a tree with no NodeReference,
    DerivedArray or DerivedObject node, and every tree [read] returns is
    fully resolved. *)
Theorem read_result_fully_resolved :
  (forall c n n', resolveReferences c n = (Resolved, n') -> isFullyResolved n' = true) /\
  (forall fc afp adir impl fuel fp wd s d t,
     read fc afp adir impl fuel fp wd s d = Ok t -> isFullyResolved t = true).
Proof.
  split.
  - intros c n n'. exact (resolveReferences_fully n c n').
  - exact read_fully.
Qed.

(** C6 witness: reading derived.json succeeds and its result is fully
    resolved. *)
Lemma read_result_fully_resolved_witness :
  exists t, readSample defaultImpl "derived.json" = Ok t /\ isFullyResolved t = true.
Proof.
  eexists. split; [vm_compute; reflexivity|].
  exact (proj2 read_result_fully_resolved sampleFiles (fun _ fp => fp) (fun _ => "")
           defaultImpl 4 "derived.json" "" "/" "/" _ eq_refl).
Defined.

(** C7 (as amended): the members of an Object live in a [std::unordered_map],
    which iterates in the order of its hash table, not in insertion order: in
    libstdc++ two members inserted into an empty Object iterate newest first,
    whatever the hash; assigning to an existing member keeps every position. *)
Theorem objectMembers_hash_order :
  (forall (V : Type) (bucket : string -> nat) k1 k2 (v1 v2 : V), k1 <> k2 ->
     hashKeys V (hashSet V bucket k2 v2 (hashSet V bucket k1 v1 [])) = [k2; k1]) /\
  (forall (V : Type) (bucket : string -> nat) k (v : V) l,
     existsb (fun m => String.eqb k (fst m)) l = true ->
     hashKeys V (hashSet V bucket k v l) = hashKeys V l).
Proof.
  split.
  - intros V bucket k1 k2 v1 v2 Hne. unfold hashSet. simpl.
    destruct (String.eqb_spec k2 k1) as [E|_]; [congruence|]. simpl.
    destruct (Nat.eqb (bucket k1) (bucket k2)); reflexivity.
  - intros V bucket k v l H. unfold hashSet. rewrite H. unfold hashKeys.
    induction l as [|[k' v'] l IH]; simpl; [reflexivity|].
    destruct (String.eqb k k') eqn:Ek; simpl; [reflexivity|].
    f_equal. apply IH. simpl in H. rewrite Ek in H. exact H.
Qed.

(** C7 counterexample: inserting "a" then "b" into an empty Object, with any
    bucket function (here the length modulo 13), iterates "b" before "a". *)
Lemma objectMembers_insertion_order_counterexample :
  hashKeys nat (hashSet nat (fun k => String.length k mod 13) "b" 2
                  (hashSet nat (fun k => String.length k mod 13) "a" 1 [])) = ["b"; "a"] /\
  ["b"; "a"] <> ["a"; "b"].
Proof. split; [reflexivity|discriminate]. Qed.

(** C8: a member whose key starts with '&' is read as a reference kind chosen
    by the JSON type of its value: a string gives a NodeReference, an array a
    DerivedArray, an object a DerivedObject, any other value fails; the name
    without the '&' must be a valid node name; two members of one object with
    the same name once the decorator is removed make the object fail. *)
Theorem readJsonObject_reference_members :
  (forall p, readJson ReferenceDecorator JNull p = None) /\
  (forall b p, readJson ReferenceDecorator (JBool b) p = None) /\
  (forall z p, readJson ReferenceDecorator (JNum z) p = None) /\
  (forall s p n, readJson ReferenceDecorator (JStr s) p = Some n -> n = NNodeReference s) /\
  (forall xs p n, readJson ReferenceDecorator (JArr xs) p = Some n ->
     exists es, n = NDerivedArray es) /\
  (forall o p n, readJson ReferenceDecorator (JObj o) p = Some n ->
     exists bs c, n = NDerivedObject bs c) /\
  (forall p name v ms acc, validateNodeName name = true -> containsMember acc name = false ->
     readMembers readJson p ((String "&"%char name, v) :: ms) acc =
     match readJson ReferenceDecorator v (appendNodeToPath p name) with
     | Some m => readMembers readJson p ms (setMember acc name m)
     | None => None
     end) /\
  (forall p name v ms acc, validateNodeName name = false ->
     readMembers readJson p ((String "&"%char name, v) :: ms) acc = None) /\
  (forall p pre k1 v1 mid k2 v2 post,
     snd (stripDecorator k1) = snd (stripDecorator k2) ->
     readJsonObject (pre ++ (k1, v1) :: mid ++ (k2, v2) :: post) p = None) /\
  readJsonObject [("a", JNum 1); ("&r", JStr "/a"); ("&l", JArr [JObj [("element", JNum 2)]])] "/" =
    Some (NObject [("a", NValue (JNum 1)); ("r", NNodeReference "/a");
                   ("l", NDerivedArray [NValue (JNum 2)])]) /\
  readJsonObject [("x", JNum 1); ("&x", JStr "/a")] "/" = None.
Proof.
  split; [reflexivity|].
  split; [reflexivity|].
  split; [reflexivity|].
  split; [intros s p n H; exact (readJson_reference_kind (JStr s) p n H)|].
  split; [intros xs p n H; exact (readJson_reference_kind (JArr xs) p n H)|].
  split; [intros o p n H; exact (readJson_reference_kind (JObj o) p n H)|].
  split; [intros p name v ms acc; exact (readMembers_reference readJson p name v ms acc)|].
  split; [intros p name v ms acc; exact (readMembers_invalid readJson p name v ms acc)|].
  split.
  { intros p pre k1 v1 mid k2 v2 post H. unfold readJsonObject.
    rewrite readJsonObject_members. exact (readMembers_duplicate _ _ _ _ _ _ _ _ _ _ H). }
  split; vm_compute; reflexivity.
Qed.

(** C9: an include whose 'type' member is null is read exactly as one whose
    'type' is "CppConfigFramework"; reading an include fails on its 'type'
    exactly when the member is present and neither null nor a string, or is a
    string other than "CppConfigFramework". *)
Theorem include_type_null_default :
  (forall o, jvalue o "type" = Some JNull -> includeType o = Ok "CppConfigFramework") /\
  (forall rf wd cc o, jvalue o "type" = Some JNull ->
     readIncludeEntry rf wd cc (JObj o) =
     readIncludeEntry rf wd cc (JObj (("type", JStr "CppConfigFramework") :: o))) /\
  (forall rf wd cc o,
     (readIncludeEntry rf wd cc (JObj o) = Err IncludeTypeNotString \/
      readIncludeEntry rf wd cc (JObj o) = Err IncludeTypeUnsupported) <->
     ((exists j, jvalue o "type" = Some j /\ j <> JNull /\ forall s, j <> JStr s) \/
      (exists s, jvalue o "type" = Some (JStr s) /\ s <> "CppConfigFramework"))).
Proof.
  split; [intros o H; unfold includeType; rewrite H; reflexivity|].
  split; [exact readIncludeEntry_null_type|].
  exact readIncludeEntry_type_errors.
Qed.

(** C10: [registerConfigReader] returns false and leaves the registry as it
    is exactly when the type is empty or the reader is null; otherwise it
    stores the reader under the type, replacing an earlier one, and returns
    true. A new factory dispatches "CppConfigFramework" to its reader. *)
Theorem registerConfigReader_spec :
  (forall (R : Type) type (r : option R) m,
     (fst (registerConfigReader R type r m) = false /\ snd (registerConfigReader R type r m) = m)
     <-> (type = "" \/ r = None)) /\
  (forall (R : Type) type (r : R) m, type <> "" ->
     registerConfigReader R type (Some r) m = (true, <[type := r]> m) /\
     dispatchConfigReader R (snd (registerConfigReader R type (Some r) m)) type = Some r) /\
  (forall (R : Type) (r : R),
     dispatchConfigReader R (newConfigReaderFactory R r) "CppConfigFramework" = Some r).
Proof.
  split.
  { intros R type r m. unfold registerConfigReader.
    destruct (String.eqb_spec type "") as [->|Hne].
    - split; [intros _; left; reflexivity|intros _; split; reflexivity].
    - destruct r as [r|].
      + split; [intros [H _]; discriminate|].
        intros [H|H]; [contradiction|discriminate].
      + split; [intros _; right; reflexivity|intros _; split; reflexivity]. }
  split.
  { intros R type r m Hne. unfold registerConfigReader, dispatchConfigReader.
    destruct (String.eqb_spec type "") as [E|_]; [contradiction|].
    split; [reflexivity|]. simpl. apply lookup_insert_eq. }
  intros R r. unfold dispatchConfigReader, newConfigReaderFactory. simpl.
  apply lookup_insert_eq.
Qed.

(* ------------------------------------------------------------------------- *)
(** * Further properties of the reader, the resolver and the containers *)



(* ------------------------------------------------------------------------- *)
(** ** The JSON reader on plain values *)

(* ------------------------------------------------------------------------- *)
(** ** Derived nodes in the JSON reader *)

Lemma readBases_items xs bs :
  (fix go (items : list json) : option (list string) :=
     match items with
     | [] => Some []
     | JStr s :: items' => match go items' with Some bs => Some (s :: bs) | None => None end
     | _ :: _ => None
     end) xs = Some bs <-> xs = map JStr bs.
Proof.
  revert bs. induction xs as [|x xs IH]; intros bs.
  - split; [intros H; injection H as <-; reflexivity|].
    destruct bs; [reflexivity|discriminate].
  - destruct x as [| | |s| |]; simpl;
      try (split; [discriminate|destruct bs; discriminate]).
    destruct (_ xs) as [bs'|] eqn:E.
    + split.
      * intros H. injection H as <-. simpl. f_equal. exact (proj1 (IH bs') eq_refl).
      * destruct bs as [|b bs]; [discriminate|]. simpl. intros H. injection H as -> Hx.
        apply IH in Hx. injection Hx as ->. reflexivity.
    + split; [discriminate|].
      destruct bs as [|b bs]; [discriminate|]. simpl. intros H. injection H as -> Hx.
      apply IH in Hx. discriminate.
Qed.

(** X1: the "base" member of a derived Object is accepted exactly when it is
    a string, giving that one base path, or a non-empty array of strings,
    giving those paths in order; anything else (an empty array, an array with
    a non-string element, a number, an object, null) is rejected. *)
Lemma readBases_spec b bs :
  readBases b = Some bs <->
  ((exists s, b = JStr s /\ bs = [s]) \/ (b = JArr (map JStr bs) /\ bs <> [])).
Proof.
  destruct b as [| | |s|xs|o]; simpl;
    try (split; [discriminate|intros [[s [H _]]|[H _]]; discriminate]).
  - split.
    + intros H. injection H as <-. left. exists s. split; reflexivity.
    + intros [[s' [H ->]]|[H _]]; [injection H as ->; reflexivity|discriminate].
  - destruct (_ xs) as [[|b0 bs0]|] eqn:E.
    + split; [discriminate|]. intros [[s [H _]]|[H Hne]]; [discriminate|].
      injection H as ->. apply readBases_items in E.
      destruct bs; [contradiction|discriminate].
    + split.
      * intros H. injection H as <-. right. split; [|discriminate].
        f_equal. apply (proj1 (readBases_items xs _)). exact E.
      * intros [[s [H _]]|[H Hne]]; [discriminate|]. injection H as ->.
        rewrite (proj2 (readBases_items _ bs) eq_refl) in E. symmetry. exact E.
    + split; [discriminate|]. intros [[s [H _]]|[H Hne]]; [discriminate|].
      injection H as ->. rewrite (proj2 (readBases_items _ bs) eq_refl) in E. discriminate.
Qed.

Lemma readJson_derivedObject_eq o p :
  readJson ReferenceDecorator (JObj o) p =
  match jvalue o "base" with
  | None => None
  | Some b =>
      match readBases b with
      | None => None
      | Some bs =>
          match jvalue o "config" with
          | None | Some JNull => Some (NDerivedObject bs NNull)
          | Some (JObj c) =>
              match readJsonObject c p with
              | Some cfg => Some (NDerivedObject bs cfg)
              | None => None
              end
          | Some _ => None
          end
      end
  end.
Proof.
  simpl. destruct (jvalue o "base") as [b|]; [|reflexivity].
  destruct (readBases b) as [bs|]; [|reflexivity].
  match goal with |- match ?F o with _ => _ end = _ =>
    assert (E : F o = match jvalue o "config" with
                      | None | Some JNull => Some NNull
                      | Some (JObj c) => readJsonObject c p
                      | Some _ => None
                      end) end.
  { clear. induction o as [|[k v] o IH]; [reflexivity|]. cbn -[String.eqb readJson].
    rewrite (String.eqb_sym k "config").
    destruct (String.eqb "config" k); [|exact IH].
    destruct v; reflexivity. }
  rewrite E. destruct (jvalue o "config") as [[| | | | |c]|]; try reflexivity.
Qed.

Lemma readJson_derivedArray_shape xs p : forall acc n,
  (fix go (xs : list json) (acc : list node) : option node :=
     match xs with
     | [] => Some (NDerivedArray (rev acc))
     | JObj [(key, elementValue)] :: xs' =>
         let '(d', elementName) := stripDecorator key in
         if String.eqb elementName "element" then
           match readJson d' elementValue p with
           | Some e => go xs' (e :: acc)
           | None => None
           end
         else None
     | _ :: _ => None
     end) xs acc = Some n ->
  exists es, n = NDerivedArray es /\ length es = length acc + length xs /\
    Forall (fun x => exists key ev, x = JObj [(key, ev)] /\
                       snd (stripDecorator key) = "element" /\
                       exists e, readJson (fst (stripDecorator key)) ev p = Some e) xs.
Proof.
  induction xs as [|x xs IH]; intros acc n H.
  - injection H as <-. exists (rev acc). rewrite length_rev. simpl.
    split; [reflexivity|split; [lia|constructor]].
  - destruct x as [| | | | |[|[key ev] [|]]]; try discriminate.
    destruct (stripDecorator key) as [d en] eqn:Es.
    destruct (String.eqb_spec en "element") as [->|]; [|discriminate].
    destruct (readJson d ev p) as [e|] eqn:Ee; [|discriminate].
    destruct (IH _ _ H) as [es [-> [Hl Hf]]].
    exists es. split; [reflexivity|]. simpl in Hl. split; [simpl; lia|].
    constructor; [|exact Hf].
    exists key, ev. rewrite Es. simpl. split; [reflexivity|split; [reflexivity|]].
    exists e. exact Ee.
Qed.


(* ------------------------------------------------------------------------- *)
(** ** The resolver on resolved nodes, and the shapes it keeps *)

Lemma resolveList_length rs mk c r : forall l acc res es',
  resolveList rs mk c l r acc = (res, es') -> length es' = length l + length r.
Proof.
  induction r as [|e r IH]; simpl; intros l acc res es' H.
  - injection H as _ <-. rewrite length_rev. lia.
  - destruct (rs (mk l r :: c) e) as [[] e'].
    + rewrite (IH _ _ _ _ H). simpl. lia.
    + rewrite (IH _ _ _ _ H). simpl. lia.
    + injection H as _ <-. rewrite rev_append_rev, length_app, length_rev. simpl. lia.
Qed.

(** X2: resolving an Array, whatever the outcome, gives an Array with as many
    elements as before: the resolver replaces elements in place and never adds
    or drops one. *)
Lemma resolveReferences_array_shape c es r n' :
  resolveReferences c (NArray es) = (r, n') ->
  exists es', n' = NArray es' /\ length es' = length es.
Proof.
  rewrite resolveReferences_NArray.
  destruct (resolveList resolveReferences FArray c [] es Resolved) as [res es'] eqn:E.
  intros H. injection H as _ <-. exists es'. split; [reflexivity|].
  rewrite (resolveList_length _ _ _ _ _ _ _ _ E). reflexivity.
Qed.

(** X3: resolving a derived Array inside a parent keeps the number of its
    elements; when the result is Resolved the node has become a plain Array,
    otherwise it is still a derived Array (with the elements resolved so
    far). *)
Lemma resolveReferences_derivedArray_shape f c es r n' :
  resolveReferences (f :: c) (NDerivedArray es) = (r, n') ->
  exists es', length es' = length es /\
    (r = Resolved /\ n' = NArray es' \/ r <> Resolved /\ n' = NDerivedArray es').
Proof.
  rewrite resolveReferences_NDerivedArray.
  destruct (resolveList resolveReferences FDerivedArray (f :: c) [] es Resolved)
    as [res es'] eqn:E.
  intros H. exists es'. split; [rewrite (resolveList_length _ _ _ _ _ _ _ _ E); reflexivity|].
  destruct res; injection H as <- <-; [left; split; reflexivity
                                      |right; split; [discriminate|reflexivity]
                                      |right; split; [discriminate|reflexivity]].
Qed.


(* ------------------------------------------------------------------------- *)
(** ** The transform and the include loop *)

Lemma split_slash_acc_nonempty s : forall cur, split_slash_acc s cur <> [].
Proof.
  induction s as [|c s IH]; intros cur; simpl; [discriminate|].
  destruct (Ascii.eqb c "/"); [discriminate|apply IH].
Qed.

Lemma absolute_fields_nonempty d :
  isAbsoluteNodePath d = true -> tl (split_slash d) <> [].
Proof.
  destruct d as [|c s]; simpl; [discriminate|].
  intros Hc. unfold split_slash. simpl. rewrite Hc. simpl. apply split_slash_acc_nonempty.
Qed.

Lemma destinationChain_lookup names : forall sc t,
  names <> [] -> destinationChain names sc = Some t -> lookupPath t names = Some sc.
Proof.
  induction names as [|k ks IH]; intros sc t Hne H; [congruence|].
  destruct ks as [|k2 ks2].
  - simpl in H. destruct (validateNodeName k); [|discriminate].
    injection H as <-. simpl. rewrite String.eqb_refl. reflexivity.
  - change (destinationChain (k :: k2 :: ks2) sc) with
      (if validateNodeName k then
         match destinationChain (k2 :: ks2) sc with Some t => Some (NObject [(k, t)]) | None => None end
       else None) in H.
    destruct (validateNodeName k); [|discriminate].
    destruct (destinationChain (k2 :: ks2) sc) as [t'|] eqn:E; [|discriminate].
    injection H as <-. simpl. rewrite String.eqb_refl.
    exact (IH sc t' ltac:(discriminate) E).
Qed.

Lemma destinationChain_none names : forall sc,
  names <> [] -> (destinationChain names sc = None <-> existsb (fun k => negb (validateNodeName k)) names = true).
Proof.
  induction names as [|k ks IH]; intros sc Hne; [congruence|].
  destruct ks as [|k2 ks2].
  - cbn [destinationChain existsb]. destruct (validateNodeName k); cbn; split; congruence.
  - change (destinationChain (k :: k2 :: ks2) sc) with
      (if validateNodeName k then
         match destinationChain (k2 :: ks2) sc with Some t => Some (NObject [(k, t)]) | None => None end
       else None).
    change (existsb (fun k => negb (validateNodeName k)) (k :: k2 :: ks2)) with
      (negb (validateNodeName k) || existsb (fun k => negb (validateNodeName k)) (k2 :: ks2)).
    destruct (validateNodeName k); cbn [negb orb].
    + rewrite <- (IH sc ltac:(discriminate)).
      destruct (destinationChain (k2 :: ks2) sc); split; congruence.
    + split; reflexivity.
Qed.

(** X4: when [transformConfig] succeeds for an absolute destination path other
    than "/", the source subtree (the whole configuration for the source "/",
    otherwise the node at the source path) is found in the result at the
    names of the destination path. *)
Lemma transformConfig_destination config s d t :
  isAbsoluteNodePath d = true -> d <> "/" -> transformConfig config s d = Ok t ->
  exists sc, (if String.eqb s "/" then sc = config else nodeAtPath ([], config) s = Some sc) /\
             lookupPath t (tl (split_slash d)) = Some sc.
Proof.
  intros Ha Hd. unfold transformConfig.
  apply String.eqb_neq in Hd. rewrite Hd, andb_false_r.
  destruct (String.eqb s "/") eqn:Es.
  - destruct (destinationChain (tl (split_slash d)) config) as [t'|] eqn:E; [|discriminate].
    intros H; injection H as <-. exists config. split; [reflexivity|].
    exact (destinationChain_lookup _ _ _ (absolute_fields_nonempty d Ha) E).
  - destruct (nodeAtPath ([], config) s) as [sc|]; [|discriminate].
    destruct (destinationChain (tl (split_slash d)) sc) as [t'|] eqn:E; [|discriminate].
    intros H; injection H as <-. exists sc. split; [reflexivity|].
    exact (destinationChain_lookup _ _ _ (absolute_fields_nonempty d Ha) E).
Qed.

(** X5: for an absolute destination path other than "/", [transformConfig]
    fails exactly when the source path (other than "/") names no node or some
    name of the destination path is not a valid node name. *)
Lemma transformConfig_failure config s d :
  isAbsoluteNodePath d = true -> d <> "/" ->
  (transformConfig config s d = Err TransformFailed <->
   ((s <> "/" /\ nodeAtPath ([], config) s = None) \/
    existsb (fun k => negb (validateNodeName k)) (tl (split_slash d)) = true)).
Proof.
  intros Ha Hd. pose proof (absolute_fields_nonempty d Ha) as Hn.
  unfold transformConfig.
  apply String.eqb_neq in Hd. rewrite Hd, andb_false_r.
  destruct (String.eqb_spec s "/") as [->|Hs].
  - rewrite <- (destinationChain_none _ config Hn).
    destruct (destinationChain (tl (split_slash d)) config); split; intros H;
      try discriminate; try reflexivity.
    + destruct H as [[? _]|H]; [congruence|discriminate].
    + right; reflexivity.
  - destruct (nodeAtPath ([], config) s) as [sc|].
    + rewrite <- (destinationChain_none _ sc Hn).
      destruct (destinationChain (tl (split_slash d)) sc); split; intros H;
        try discriminate; try reflexivity.
      * destruct H as [[_ ?]|H]; discriminate.
      * right; reflexivity.
    + split; [intros _; left; auto|reflexivity].
Qed.

(** X6: the include entries are processed one after the other on the running
    aggregate: processing two lists in a row is processing the first, then,
    if it did not fail, the second from its result; the first error stops. *)
Lemma readIncludeEntries_app rf wd xs : forall c ys,
  readIncludeEntries rf wd c (xs ++ ys)%list =
  match readIncludeEntries rf wd c xs with
  | Err e => Err e
  | Ok c' => readIncludeEntries rf wd c' ys
  end.
Proof.
  induction xs as [|x xs IH]; intros c ys; simpl; [reflexivity|].
  destruct (readIncludeEntry rf wd c x); [apply IH|reflexivity].
Qed.

(* ------------------------------------------------------------------------- *)
(** ** The member container *)

Section Hash.
Context {V : Type} (bucket : string -> nat).

Lemma insertBucketBegin_perm k v l : forall l',
  insertBucketBegin V bucket k v l = Some l' -> Permutation l' ((k, v) :: l).
Proof.
  induction l as [|[k' v'] l IH]; intros l' H; simpl in H; [discriminate|].
  destruct (Nat.eqb (bucket k') (bucket k)).
  - injection H as <-. reflexivity.
  - destruct (insertBucketBegin V bucket k v l) as [l''|] eqn:E; [|discriminate].
    injection H as <-. rewrite (IH l'' eq_refl). apply perm_swap.
Qed.

Lemma assignExisting_keys k v l : map fst (assignExisting V k v l) = map fst l.
Proof.
  induction l as [|[k' v'] l IH]; simpl; [reflexivity|].
  destruct (String.eqb k k'); simpl; [reflexivity|]. rewrite IH; reflexivity.
Qed.

Lemma assignExisting_find_same k v l :
  existsb (fun m => String.eqb k (fst m)) l = true -> hashFind V k (assignExisting V k v l) = Some v.
Proof.
  induction l as [|[k' v'] l IH]; simpl; [discriminate|].
  destruct (String.eqb k k') eqn:E; simpl; [rewrite E; reflexivity|].
  rewrite E. exact IH.
Qed.

Lemma assignExisting_find_other k k2 v l :
  k2 <> k -> hashFind V k2 (assignExisting V k v l) = hashFind V k2 l.
Proof.
  intros Hne. induction l as [|[k' v'] l IH]; simpl; [reflexivity|].
  destruct (String.eqb_spec k k') as [<-|]; simpl.
  - apply String.eqb_neq in Hne. rewrite Hne. reflexivity.
  - rewrite IH. reflexivity.
Qed.

Lemma insertBucketBegin_find_same k v l : forall l',
  existsb (fun m => String.eqb k (fst m)) l = false ->
  insertBucketBegin V bucket k v l = Some l' -> hashFind V k l' = Some v.
Proof.
  induction l as [|[k' v'] l IH]; intros l' Hk H; simpl in H; [discriminate|].
  simpl in Hk. apply orb_false_elim in Hk as [Hk1 Hk2].
  destruct (Nat.eqb (bucket k') (bucket k)).
  - injection H as <-. simpl. rewrite String.eqb_refl. reflexivity.
  - destruct (insertBucketBegin V bucket k v l) as [l''|] eqn:E; [|discriminate].
    injection H as <-. simpl. rewrite Hk1. exact (IH l'' Hk2 eq_refl).
Qed.

Lemma insertBucketBegin_find_other k k2 v l : forall l',
  k2 <> k -> insertBucketBegin V bucket k v l = Some l' -> hashFind V k2 l' = hashFind V k2 l.
Proof.
  intros l' Hne. apply String.eqb_neq in Hne.
  revert l'. induction l as [|[k' v'] l IH]; intros l' H; simpl in H; [discriminate|].
  destruct (Nat.eqb (bucket k') (bucket k)).
  - injection H as <-. simpl. rewrite Hne. reflexivity.
  - destruct (insertBucketBegin V bucket k v l) as [l''|] eqn:E; [|discriminate].
    injection H as <-. simpl. rewrite (IH l'' eq_refl). reflexivity.
Qed.

Lemma existsb_key_in k (l : list (string * V)) :
  existsb (fun m => String.eqb k (fst m)) l = true <-> In k (map fst l).
Proof.
  rewrite existsb_exists, in_map_iff. split.
  - intros [[k' v'] [Hin Heq]]. apply String.eqb_eq in Heq. subst. exists (k', v'); auto.
  - intros [[k' v'] [Heq Hin]]. simpl in Heq. subst k'. exists (k, v'). split; [auto|apply String.eqb_refl].
Qed.

(** X7: after [m_object[k] = v] on the member container, a lookup of [k] finds
    [v], and a lookup of any other name finds what it found before. *)
Theorem hashSet_find k v l :
  hashFind V k (hashSet V bucket k v l) = Some v /\
  (forall k2, k2 <> k -> hashFind V k2 (hashSet V bucket k v l) = hashFind V k2 l).
Proof.
  unfold hashSet. destruct (existsb (fun m => String.eqb k (fst m)) l) eqn:Ek.
  - split; [exact (assignExisting_find_same k v l Ek)|].
    intros k2 Hne. exact (assignExisting_find_other k k2 v l Hne).
  - destruct (insertBucketBegin V bucket k v l) as [l'|] eqn:E.
    + split; [exact (insertBucketBegin_find_same k v l l' Ek E)|].
      intros k2 Hne. exact (insertBucketBegin_find_other k k2 v l l' Hne E).
    + split; [simpl; rewrite String.eqb_refl; reflexivity|].
      intros k2 Hne. simpl. apply String.eqb_neq in Hne. rewrite Hne. reflexivity.
Qed.

(** X8: [m_object[k] = v] keeps the member names distinct: the names after it
    are the names before it, plus [k] when it was new (in some order). *)
Theorem hashSet_keys k v l :
  List.NoDup (hashKeys V l) ->
  List.NoDup (hashKeys V (hashSet V bucket k v l)) /\
  Permutation (hashKeys V (hashSet V bucket k v l))
              (if existsb (fun m => String.eqb k (fst m)) l then hashKeys V l else k :: hashKeys V l).
Proof.
  unfold hashKeys, hashSet. intros Hnd.
  destruct (existsb (fun m => String.eqb k (fst m)) l) eqn:Ek.
  - rewrite assignExisting_keys. split; [exact Hnd|reflexivity].
  - assert (Hnk : ~ In k (map fst l)).
    { intros Hin. apply existsb_key_in in Hin. congruence. }
    assert (Hp : Permutation (map fst match insertBucketBegin V bucket k v l with Some l' => l' | None => (k, v) :: l end)
                             (k :: map fst l)).
    { destruct (insertBucketBegin V bucket k v l) as [l'|] eqn:E; [|reflexivity].
      change (k :: map fst l) with (map fst ((k, v) :: l)).
      apply Permutation_map. exact (insertBucketBegin_perm k v l l' E). }
    split; [|exact Hp].
    apply (Permutation_NoDup (Permutation_sym Hp)). apply List.NoDup_cons; assumption.
Qed.
End Hash.


(* ------------------------------------------------------------------------- *)
(** ** Whole files *)

(** X10: [read] never succeeds on a file whose "config" member is missing or
    is neither null nor a JSON object: [readConfigMember] rejects it. *)
Lemma read_config_not_object fc afp adir impl fuel fp wd s d rootObject t :
  fc (afp wd fp) = Some (Some (JObj rootObject)) ->
  match jvalue rootObject "config" with Some JNull | Some (JObj _) => False | _ => True end ->
  read fc afp adir impl fuel fp wd s d <> Ok t.
Proof.
  intros Hf Hc.
  destruct fuel; simpl;
  (destruct (negb (isAbsoluteNodePath s && validateNodePath s)); [discriminate|];
   destruct (negb (isAbsoluteNodePath d && validateNodePath d)); [discriminate|];
   rewrite Hf;
   match goal with |- match readIncludesMember ?rf _ _ with _ => _ end <> _ =>
     destruct (readIncludesMember rf rootObject (adir (afp wd fp))) as [cc|]; [|discriminate] end;
   unfold readConfigMember;
   destruct (jvalue rootObject "config") as [[| | | | |ms]|]; try discriminate; contradiction).
Qed.
(* ------------------------------------------------------------------------- *)
(** ** The members of a read Object *)

Lemma readMembers_keeps rj p ms : forall acc res k,
  readMembers rj p ms acc = Some (NObject res) ->
  containsMember acc k = true -> member res k = member acc k.
Proof.
  induction ms as [|[key v] ms IH]; simpl; intros acc res k H Hk.
  - injection H as <-. reflexivity.
  - destruct (stripDecorator key) as [d nm].
    destruct (negb (validateNodeName nm)); [discriminate|].
    destruct (containsMember acc nm) eqn:Ec; [discriminate|].
    destruct (rj d v (appendNodeToPath p nm)) as [m|]; [|discriminate].
    rewrite (IH _ res k H (containsMember_setMember_mono acc k nm m Hk)).
    apply member_setMember_other. intros ->. congruence.
Qed.

Lemma readMembers_member rj p ms : forall acc res key v,
  readMembers rj p ms acc = Some (NObject res) -> In (key, v) ms ->
  exists m, rj (fst (stripDecorator key)) v (appendNodeToPath p (snd (stripDecorator key))) = Some m /\
            member res (snd (stripDecorator key)) = Some m.
Proof.
  induction ms as [|[key' v'] ms IH]; simpl; intros acc res key v H Hin; [contradiction|].
  destruct (stripDecorator key') as [d nm] eqn:Es.
  destruct (negb (validateNodeName nm)); [discriminate|].
  destruct (containsMember acc nm) eqn:Ec; [discriminate|].
  destruct (rj d v' (appendNodeToPath p nm)) as [m|] eqn:Er; [|discriminate].
  destruct Hin as [Heq|Hin].
  - injection Heq as -> ->. rewrite Es. simpl. exists m. split; [exact Er|].
    rewrite (readMembers_keeps rj p ms _ res nm H (containsMember_setMember_same acc nm m)).
    apply member_setMember_same.
  - exact (IH _ res key v H Hin).
Qed.

(* ------------------------------------------------------------------------- *)
(** ** Reading, resolving and the factory, as seen from outside *)

(** X12: in an Object read by [readJsonObject], a member written "#name" holds
    the raw JSON value of that member as a Value node, whatever its JSON
    type (arrays and objects are not read as nodes). *)
Theorem readJsonObject_value_member ms p res name v :
  readJsonObject ms p = Some (NObject res) -> In (String "#"%char name, v) ms ->
  member res name = Some (NValue v).
Proof.
  unfold readJsonObject. rewrite readJsonObject_members. intros H Hin.
  destruct (readMembers_member readJson p ms [] res _ v H Hin) as [m [Hm Hres]].
  simpl in Hm, Hres.
  replace (readJson ValueDecorator v (appendNodeToPath p name)) with (Some (NValue v)) in Hm
    by (destruct v; reflexivity).
  injection Hm as <-. exact Hres.
Qed.

Lemma readJsonObject_value_member_witness :
  readJsonObject [("#v", JArr [JNum 1]); ("a", JNum 2)] "/" =
    Some (NObject [("v", NValue (JArr [JNum 1])); ("a", NValue (JNum 2))]) /\
  In (String "#"%char "v", JArr [JNum 1]) [("#v", JArr [JNum 1]); ("a", JNum 2)] /\
  member [("v", NValue (JArr [JNum 1])); ("a", NValue (JNum 2))] "v" = Some (NValue (JArr [JNum 1])).
Proof.
  split; [vm_compute; reflexivity|]. split; [simpl; left; reflexivity|].
  apply (readJsonObject_value_member [("#v", JArr [JNum 1]); ("a", JNum 2)] "/"); 
    [vm_compute; reflexivity|simpl; left; reflexivity].
Defined.

(** X13: a derived Array ('&' member with a JSON array value) is read only when
    every element is a JSON object with the single member "element" (bare or
    decorated with '#' or '&') whose value reads at the path of the derived
    Array; it then has one element node per JSON element. *)
Theorem readJson_derivedArray_elements xs p n :
  readJson ReferenceDecorator (JArr xs) p = Some n ->
  exists es, n = NDerivedArray es /\ length es = length xs /\
    Forall (fun x => exists key ev, x = JObj [(key, ev)] /\
                       snd (stripDecorator key) = "element" /\
                       exists e, readJson (fst (stripDecorator key)) ev p = Some e) xs.
Proof. intros H. exact (readJson_derivedArray_shape xs p [] n H). Qed.

Lemma readJson_derivedArray_elements_witness :
  readJson ReferenceDecorator (JArr [JObj [("element", JNum 1)]; JObj [("#element", JStr "s")]]) "/a"
    = Some (NDerivedArray [NValue (JNum 1); NValue (JStr "s")]) /\
  exists es, NDerivedArray [NValue (JNum 1); NValue (JStr "s")] = NDerivedArray es /\
    length es = length [JObj [("element", JNum 1)]; JObj [("#element", JStr "s")]] /\
    Forall (fun x => exists key ev, x = JObj [(key, ev)] /\
                       snd (stripDecorator key) = "element" /\
                       exists e, readJson (fst (stripDecorator key)) ev "/a" = Some e)
      [JObj [("element", JNum 1)]; JObj [("#element", JStr "s")]].
Proof.
  split; [vm_compute; reflexivity|].
  apply (readJson_derivedArray_elements _ "/a"). vm_compute. reflexivity.
Defined.

(** X14: a derived Object ('&' member with a JSON object value) is read exactly
    when its "base" member is a string or a non-empty array of strings and its
    "config" member is missing, null or an object that reads at the path of
    the derived Object; a missing or null "config" gives a Null override. *)
Theorem readJson_derivedObject_spec o p n :
  readJson ReferenceDecorator (JObj o) p = Some n <->
  exists b bs, jvalue o "base" = Some b /\ readBases b = Some bs /\
    (((jvalue o "config" = None \/ jvalue o "config" = Some JNull) /\ n = NDerivedObject bs NNull) \/
     (exists c cfg, jvalue o "config" = Some (JObj c) /\ readJsonObject c p = Some cfg /\
                    n = NDerivedObject bs cfg)).
Proof.
  rewrite readJson_derivedObject_eq. split.
  - destruct (jvalue o "base") as [b|] eqn:Eb; [|discriminate].
    destruct (readBases b) as [bs|] eqn:Ebs; [|discriminate].
    intros H. exists b, bs. split; [reflexivity|]. split; [exact Ebs|].
    destruct (jvalue o "config") as [[| | | | |c]|] eqn:Ec; try discriminate.
    + injection H as <-. left. auto.
    + destruct (readJsonObject c p) as [cfg|] eqn:E; [|discriminate].
      injection H as <-. right. exists c, cfg. auto.
    + injection H as <-. left. auto.
  - intros [b [bs [-> [-> [[[-> | ->] ->] | [c [cfg [-> [-> ->]]]]]]]]]; reflexivity.
Qed.

(** X15: the resolver leaves a fully resolved node as it is and reports it
    Resolved, wherever the node sits in the tree. *)
Theorem resolveReferences_fully_resolved_noop n c :
  isFullyResolved n = true -> resolveReferences c n = (Resolved, n).
Proof. intros H. exact (resolveReferences_stable n H c). Qed.

Lemma resolveReferences_fully_resolved_noop_witness :
  isFullyResolved (NObject [("a", NArray [NValue (JNum 1); NNull])]) = true /\
  resolveReferences [] (NObject [("a", NArray [NValue (JNum 1); NNull])]) =
    (Resolved, NObject [("a", NArray [NValue (JNum 1); NNull])]).
Proof.
  split; [reflexivity|]. apply resolveReferences_fully_resolved_noop. reflexivity.
Defined.


(** X16: after [registerConfigReader] stores a reader under a non-empty
    type, [readConfig] for that type delegates to that reader, and
    [readConfig] for every other type behaves as before the registration. *)
Theorem readConfig_registerConfigReader {R Result : Type}
  (readWith : R -> option Result * option string) type (r : R) m :
  type <> "" ->
  readConfig R readWith (snd (registerConfigReader R type (Some r) m)) type = readWith r /\
  (forall type', type' <> type ->
     readConfig R readWith (snd (registerConfigReader R type (Some r) m)) type' =
     readConfig R readWith m type').
Proof.
  intros Hne. unfold registerConfigReader.
  destruct (String.eqb_spec type "") as [E|_]; [contradiction|]. simpl.
  unfold readConfig. split.
  - rewrite lookup_insert_eq. reflexivity.
  - intros type' Hne'. rewrite lookup_insert_ne by congruence. reflexivity.
Qed.

Lemma readConfig_registerConfigReader_witness :
  "json" <> "" /\
  readConfig nat (fun r => (Some r, None)) (snd (registerConfigReader nat "json" (Some 7)
    (newConfigReaderFactory nat 1))) "json" = (Some 7, None).
Proof.
  split; [discriminate|].
  exact (proj1 (readConfig_registerConfigReader (fun r : nat => (Some r, @None string)) "json" 7
                  (newConfigReaderFactory nat 1) ltac:(discriminate))).
Defined.

(** X17: a new factory reads the "CppConfigFramework" type with its
    own reader and rejects every other type with the error "Unsupported
    configuration type: " followed by the type and no result. *)
Theorem readConfig_newConfigReaderFactory {R Result : Type}
  (readWith : R -> option Result * option string) (r : R) type :
  readConfig R readWith (newConfigReaderFactory R r) type =
  if String.eqb type "CppConfigFramework" then readWith r
  else (None, Some (String.append "Unsupported configuration type: " type)).
Proof.
  unfold readConfig, newConfigReaderFactory, registerConfigReader. simpl.
  destruct (String.eqb_spec type "CppConfigFramework") as [->|Hne].
  - rewrite lookup_insert_eq. reflexivity.
  - rewrite lookup_insert_ne by congruence. rewrite lookup_empty. reflexivity.
Qed.

Lemma resolveReferences_array_shape_witness :
  resolveReferences [] (NArray [NValue (JNum 1); NNull]) = (Resolved, NArray [NValue (JNum 1); NNull]) /\
  exists es', NArray [NValue (JNum 1); NNull] = NArray es' /\
              length es' = length [NValue (JNum 1); NNull].
Proof.
  split; [vm_compute; reflexivity|].
  apply (resolveReferences_array_shape [] _ Resolved). vm_compute. reflexivity.
Defined.

Lemma resolveReferences_derivedArray_shape_witness :
  resolveReferences [FObject "d" [("a", NValue (JNum 5))] []]
    (NDerivedArray [NValue (JNum 1); NNodeReference "/a"]) =
    (Resolved, NArray [NValue (JNum 1); NValue (JNum 5)]) /\
  exists es', length es' = length [NValue (JNum 1); NNodeReference "/a"] /\
    (Resolved = Resolved /\ NArray [NValue (JNum 1); NValue (JNum 5)] = NArray es' \/
     Resolved <> Resolved /\ NArray [NValue (JNum 1); NValue (JNum 5)] = NDerivedArray es').
Proof.
  split; [vm_compute; reflexivity|].
  apply (resolveReferences_derivedArray_shape (FObject "d" [("a", NValue (JNum 5))] []) []).
  vm_compute. reflexivity.
Defined.

Lemma transformConfig_destination_witness :
  isAbsoluteNodePath "/x/y" = true /\ "/x/y" <> "/" /\
  transformConfig (NObject [("a", NObject [("b", NValue (JNum 1))])]) "/a" "/x/y" =
    Ok (NObject [("x", NObject [("y", NObject [("b", NValue (JNum 1))])])]) /\
  exists sc, (if String.eqb "/a" "/" then sc = NObject [("a", NObject [("b", NValue (JNum 1))])]
              else nodeAtPath ([], NObject [("a", NObject [("b", NValue (JNum 1))])]) "/a" = Some sc) /\
             lookupPath (NObject [("x", NObject [("y", NObject [("b", NValue (JNum 1))])])])
               (tl (split_slash "/x/y")) = Some sc.
Proof.
  split; [reflexivity|]. split; [discriminate|]. split; [vm_compute; reflexivity|].
  apply transformConfig_destination; [reflexivity|discriminate|vm_compute; reflexivity].
Defined.

Lemma transformConfig_failure_witness :
  isAbsoluteNodePath "/x/1y" = true /\ "/x/1y" <> "/" /\
  (transformConfig (NObject [("a", NValue (JNum 1))]) "/a" "/x/1y" = Err TransformFailed <->
   (("/a" <> "/" /\ nodeAtPath ([], NObject [("a", NValue (JNum 1))]) "/a" = None) \/
    existsb (fun k => negb (validateNodeName k)) (tl (split_slash "/x/1y")) = true)).
Proof.
  split; [reflexivity|]. split; [discriminate|].
  apply transformConfig_failure; [reflexivity|discriminate].
Defined.

Lemma hashSet_keys_witness :
  List.NoDup (hashKeys nat [("a", 1); ("bb", 2)]) /\
  List.NoDup (hashKeys nat (hashSet nat String.length "c" 3 [("a", 1); ("bb", 2)])) /\
  Permutation (hashKeys nat (hashSet nat String.length "c" 3 [("a", 1); ("bb", 2)]))
    (if existsb (fun m => String.eqb "c" (fst m)) [("a", 1); ("bb", 2)]
     then hashKeys nat [("a", 1); ("bb", 2)] else "c" :: hashKeys nat [("a", 1); ("bb", 2)]).
Proof.
  assert (H : List.NoDup (hashKeys nat [("a", 1); ("bb", 2)])).
  { simpl. apply List.NoDup_cons; [simpl; intros [E|[]]; discriminate|].
    apply List.NoDup_cons; [intros []|apply List.NoDup_nil]. }
  split; [exact H|]. exact (hashSet_keys String.length "c" 3 _ H).
Defined.

Lemma read_config_not_object_witness :
  sampleFiles ((fun _ fp => fp) "" "noconfig.json") =
    Some (Some (JObj [("includes", JArr [JObj [("file_path", JStr "base.json")]])])) /\
  match jvalue [("includes", JArr [JObj [("file_path", JStr "base.json")]])] "config" with
  | Some JNull | Some (JObj _) => False
  | _ => True
  end /\
  read sampleFiles (fun _ fp => fp) (fun _ => "") defaultImpl 4 "noconfig.json" "" "/" "/"
    <> Ok (NObject []).
Proof.
  split; [reflexivity|]. split; [simpl; exact I|].
  apply read_config_not_object
    with (rootObject := [("includes", JArr [JObj [("file_path", JStr "base.json")]])]);
    [reflexivity|simpl; exact I].
Defined.
